(** * FElupe: the MORPH constitutive evaluator and the Newton-Raphson driver

    A shallow embedding of
    - [felupe/constitution/hyperelasticity/models/_morph.py]
      ([morph], [morph_representative_directions.morph_uniaxial]), and
    - [felupe/utils.py] ([dofresiduals], [newtonrhapson], [incsolve]).

    The constitutive law is embedded over the real numbers: rounding,
    overflow and not-a-number values of IEEE arithmetic are not part of that
    model.  The solver utilities, whose control flow branches on
    not-a-number values and on exact zeros, are embedded over binary64
    floats. *)

From Stdlib Require Import Reals Lra Lia List ZArith Bool Sorted.
From Stdlib Require Floats.
From stdpp Require Import base option list gmap strings.
Import ListNotations.

(** ** Python sequences *)

Module Py.

(** [a[i:j]] for [0 <= i] and [0 <= j]: slicing clamps and never raises. *)
Definition slice {A : Type} (a : list A) (i j : nat) : list A :=
  firstn (j - i) (skipn i a).

(** [a[i]] for [0 <= i]: [None] stands for [IndexError]. *)
Definition item {A : Type} (a : list A) (i : nat) : option A := nth_error a i.

(** [a[-1]]. *)
Definition item_last {A : Type} (a : list A) : option A :=
  nth_error (rev a) 0.

(** [zip(a, b)] followed by an elementwise [f]. *)
Fixpoint zip_with {A B C : Type} (f : A -> B -> C) (a : list A) (b : list B)
  : list C :=
  match a, b with
  | x :: a', y :: b' => f x y :: zip_with f a' b'
  | _, _ => []
  end.

Arguments item : simpl never.
Arguments item_last : simpl never.

End Py.

(** ** The MORPH model *)

Module Morph.

Local Open Scope R_scope.

(** The tensor operations of [tensortrax] which [_morph.py] imports.  They
    are collaborators of the evaluator; the evaluator is embedded against
    this interface. *)
Class Tensortrax (T : Type) := {
  tadd : T -> T -> T;              (* A + B *)
  tsub : T -> T -> T;              (* A - B *)
  tscale : R -> T -> T;            (* a * A,  A * a *)
  tdiv : T -> R -> T;              (* A / a *)
  matmul : T -> T -> T;            (* A @ B *)
  det : T -> R;
  inv : T -> T;
  eigvalsh : T -> list R;          (* eigenvalues, ascending *)
  expm : T -> T;
  sym : T -> T;
  dev : T -> T;
  triu_1d : T -> list R;
  from_triu_1d : list R -> T;
  real_to_dual : T -> T -> T;
  real_to_dual_1d : list R -> list R -> list R;
  (* whether the tensors handed to try_stack can be unpacked and stacked *)
  stackable : list (list R) -> bool
}.

(** Modelled from the spec: [tensortrax.math.special.try_stack] is not part
    of the repository.  It returns the stacked (concatenated) arrays, and
    the [fallback] array when the stacking is not possible. *)
Definition try_stack `{Tensortrax T} (arrays : list (list R))
  (fallback : list R) : list R :=
  if stackable arrays then concat arrays else fallback.

(** [sigmoid], the local function of [morph] and the lambda of
    [morph_uniaxial]. *)
Definition sigmoid (x : R) : R := 1 / sqrt (1 + x ^ 2).

(** [where(cond, a, b)] of [tensortrax.math.if_else]. *)
Definition if_else {A : Type} {P Q : Prop} (cond : {P} + {Q}) (a b : A) : A :=
  if cond then a else b.

Section Tensor.

Context {T : Type} `{TT : Tensortrax T}.

(** [morph(C, statevars, p)], lines 79-122.  The quotient [LG / LTG] of
    line 112 is computed by [quot], so that what the evaluator does with it
    can be stated; [morph] below takes the tensor division for it.  [None]
    stands for an [IndexError] ([statevars] empty, fewer than 8 parameters,
    no eigenvalue). *)
Definition morph_with (quot : T -> R -> T) (C : T) (statevars p : list R)
  : option (T * list R) :=
  (* extract old state variables *)
  CTSn ← Py.item statevars 0;
  let Cn := from_triu_1d (Py.slice statevars 1 7) in
  let SAn := from_triu_1d (skipn 7 statevars) in
  (* distortional part of right Cauchy-Green deformation tensor *)
  let I3 := det C in
  let CG := tscale (Rpower I3 (- 1 / 3)) C in
  (* inverse of and incremental right Cauchy-Green deformation tensor *)
  let invC := inv C in
  let dC := tsub C Cn in
  (* eigenvalues, sorted in ascending order *)
  let λCG := eigvalsh CG in
  (* Tresca invariant of the distortional part *)
  λCG_last ← Py.item_last λCG;
  λCG_0 ← Py.item λCG 0;
  let CTG := λCG_last - λCG_0 in
  (* maximum Tresca invariant in load history *)
  let CTS := Rmax CTG CTSn in
  (* material parameters *)
  p0 ← Py.item p 0;
  p1 ← Py.item p 1;
  p2 ← Py.item p 2;
  let α := p0 + p1 * sigmoid (p2 * CTS) in
  p3 ← Py.item p 3;
  let β := p3 * sigmoid (p2 * CTS) in
  p4 ← Py.item p 4;
  p5 ← Py.item p 5;
  let γ := p4 * CTS * (1 - sigmoid (CTS / p5)) in
  let LG := matmul (sym (dev (matmul invC dC))) CG in
  let λLG := eigvalsh LG in
  λLG_last ← Py.item_last λLG;
  λLG_0 ← Py.item λLG 0;
  let LTG := λLG_last - λLG_0 in
  let LG_LTG := if_else (Rlt_dec 0 LTG) (quot LG LTG) LG in
  (* limiting stresses "L" and additional stresses "A" *)
  p6 ← Py.item p 6;
  p7 ← Py.item p 7;
  let SL :=
    matmul
      (tadd (tscale γ (expm (tdiv (tscale CTG (tscale p6 LG_LTG)) CTS)))
            (tscale p7 LG_LTG))
      invC in
  let SA := tdiv (tadd SAn (tscale (β * LTG) SL)) (1 + β * LTG) in
  (* second Piola-Kirchhoff stress tensor *)
  let dψdC :=
    tdiv (tadd (matmul (tscale (2 * α) (dev CG)) invC)
               (matmul (dev (matmul SA C)) invC)) 2 in
  let statevars_new :=
    try_stack [[CTS]; triu_1d C; triu_1d SA] statevars in
  Some (real_to_dual dψdC C, statevars_new).

Definition morph (C : T) (statevars p : list R) : option (T * list R) :=
  morph_with tdiv C statevars p.

(** The quantities of [morph] that the statements below speak about, each
    computed by the same lines as in [morph_with]. *)

(** [CG], lines 84-85. *)
Definition distortional (C : T) : T := tscale (Rpower (det C) (- 1 / 3)) C.

(** The Tresca invariant [λ[-1] - λ[0]] of a tensor, lines 92-95 and
    110-111. *)
Definition tresca (A : T) : option R :=
  λ_last ← Py.item_last (eigvalsh A);
  λ_0 ← Py.item (eigvalsh A) 0;
  Some (λ_last - λ_0).

(** [LG], lines 80, 88-89 and 109. *)
Definition incremental (C : T) (statevars : list R) : T :=
  let Cn := from_triu_1d (Py.slice statevars 1 7) in
  matmul (sym (dev (matmul (inv C) (tsub C Cn)))) (distortional C).

(** The history invariant of a state vector, [statevars[0]]. *)
Definition history (statevars : list R) : option R := Py.item statevars 0.

(** A sequence of calls, each seeded with the state returned by the
    preceding one; the result is the list of the returned states. *)
Fixpoint morph_chain (Cs : list T) (statevars p : list R)
  : option (list (list R)) :=
  match Cs with
  | [] => Some []
  | C :: Cs' =>
      r ← morph C statevars p;
      rest ← morph_chain Cs' (snd r) p;
      Some (snd r :: rest)
  end.

(** *** The uniaxial law of the representative-directions variant *)

(** Arithmetic of numpy arrays of one shape, and of an array and a scalar. *)
Definition vadd : list R -> list R -> list R := Py.zip_with Rplus.
Definition vsub : list R -> list R -> list R := Py.zip_with Rminus.
Definition vmul : list R -> list R -> list R := Py.zip_with Rmult.
Definition vdiv : list R -> list R -> list R := Py.zip_with Rdiv.
Definition maximum : list R -> list R -> list R := Py.zip_with Rmax.
Definition sadd (a : R) (v : list R) : list R := map (fun x => a + x) v.
Definition ssub (a : R) (v : list R) : list R := map (fun x => a - x) v.
Definition smul (a : R) (v : list R) : list R := map (fun x => a * x) v.
Definition sdiv (a : R) (v : list R) : list R := map (fun x => a / x) v.
Definition vsubs (v : list R) (a : R) : list R := map (fun x => x - a) v.
Definition vdivs (v : list R) (a : R) : list R := map (fun x => x / a) v.
Definition vpow (v : list R) (n : nat) : list R := map (fun x => x ^ n) v.
Definition tensor_abs : list R -> list R := map Rabs.
Definition vexp : list R -> list R := map exp.
Definition vsigmoid : list R -> list R := map sigmoid.

(** [array(a, like=C, shape=(21,))]: the reshape raises unless [a] has 21
    entries. *)
Definition array21 (a : list R) : option (list R) :=
  if Nat.eqb (length a) 21 then Some a else None.

(** [CT], line 227. *)
Definition uniaxial_tresca (lam : list R) : list R :=
  tensor_abs (vsub (vpow lam 2) (sdiv 1 lam)).

(** [morph_uniaxial(λ, statevars, p, ε)], lines 222-252: [lam] is [λ], the
    stretches of the 21 directions, an array of the shape of the state
    arrays; the arithmetic of the law is elementwise.  [None] stands for
    the error of a reshape to [(21,)], for an [IndexError] of [p], and for a
    [lam] of another length, which is outside of this model. *)
Definition morph_uniaxial (lam statevars p : list R) (ε : R)
  : option (list R * list R) :=
  CTSn ← array21 (Py.slice statevars 0 21);
  λn ← sadd 1 <$> array21 (Py.slice statevars 21 42);
  SA1n ← array21 (Py.slice statevars 42 63);
  SA2n ← array21 (skipn 63 statevars);
  _ ← array21 lam;
  let CT := uniaxial_tresca lam in
  let CTS := maximum CT CTSn in
  let L1 := vdivs (smul 2 (vsub (vdiv (vpow lam 3) λn) (vpow λn 2))) 3 in
  let L2 := vdivs (vsub (vdiv (vpow λn 2) (vpow lam 3)) (sdiv 1 λn)) 3 in
  let LT := tensor_abs (vsub L1 L2) in
  p0 ← Py.item p 0;
  p1 ← Py.item p 1;
  p2 ← Py.item p 2;
  let α := sadd p0 (smul p1 (vsigmoid (smul p2 CTS))) in
  p3 ← Py.item p 3;
  let β := smul p3 (vsigmoid (smul p2 CTS)) in
  p4 ← Py.item p 4;
  p5 ← Py.item p 5;
  let γ := vmul (smul p4 CTS) (ssub 1 (vsigmoid (vdivs CTS p5))) in
  let L1_LT := vdiv L1 (sadd ε LT) in
  let L2_LT := vdiv L2 (sadd ε LT) in
  let CT_CTS := vdiv CT (sadd ε CTS) in
  p6 ← Py.item p 6;
  p7 ← Py.item p 7;
  let SL1 :=
    vdiv (vadd (vmul γ (vexp (vmul (smul p6 L1_LT) CT_CTS))) (smul p7 L1_LT))
         (vpow lam 2) in
  let SL2 :=
    vmul (vadd (vmul γ (vexp (vmul (smul p6 L2_LT) CT_CTS))) (smul p7 L2_LT))
         lam in
  let SA1 := vdiv (vadd SA1n (vmul (vmul β LT) SL1)) (sadd 1 (vmul β LT)) in
  let SA2 := vdiv (vadd SA2n (vmul (vmul β LT) SL2)) (sadd 1 (vmul β LT)) in
  let dψdλ :=
    vsub (vmul (vadd (smul 2 α) SA1) lam)
         (vdiv (vadd (smul 2 α) SA2) (vpow lam 2)) in
  let statevars_new := try_stack [CTS; vsubs lam 1; SA1; SA2] statevars in
  Some (smul 5 (real_to_dual_1d dψdλ lam), statevars_new).

(** The history invariants of the 21 directions, [statevars[:21]]. *)
Definition history21 (statevars : list R) : list R := Py.slice statevars 0 21.

End Tensor.

(** *** Diagonal tensors

    The interface restricted to diagonal 3x3 tensors [diag(a, b, c)], on
    which every operation has a closed form.  [stack] tells whether
    [try_stack] can stack. *)

Definition diag : Type := R * R * R.

Definition dmap (f : R -> R) (A : diag) : diag :=
  let '(a, b, c) := A in (f a, f b, f c).

Definition dzip (f : R -> R -> R) (A B : diag) : diag :=
  let '(a, b, c) := A in let '(a', b', c') := B in (f a a', f b b', f c c').

Definition diag_dev (A : diag) : diag :=
  let '(a, b, c) := A in
  let m := (a + b + c) / 3 in (a - m, b - m, c - m).

Definition diag_eigvalsh (A : diag) : list R :=
  let '(a, b, c) := A in
  let lo := Rmin a (Rmin b c) in
  let hi := Rmax a (Rmax b c) in
  [lo; a + b + c - lo - hi; hi].

(** Upper-triangle order [(0,0), (0,1), (0,2), (1,1), (1,2), (2,2)]. *)
Definition diag_triu_1d (A : diag) : list R :=
  let '(a, b, c) := A in [a; 0; 0; b; 0; c].

Definition diag_from_triu_1d (v : list R) : diag :=
  (nth 0 v 0, nth 3 v 0, nth 5 v 0).

Definition Diagonal (stack : bool) : Tensortrax diag := {|
  tadd := dzip Rplus;
  tsub := dzip Rminus;
  tscale := fun s => dmap (Rmult s);
  tdiv := fun A s => dmap (fun x => x / s) A;
  matmul := dzip Rmult;
  det := fun '(a, b, c) => a * b * c;
  inv := dmap Rinv;
  eigvalsh := diag_eigvalsh;
  expm := dmap exp;
  sym := fun A => A;
  dev := diag_dev;
  triu_1d := diag_triu_1d;
  from_triu_1d := diag_from_triu_1d;
  real_to_dual := fun A _ => A;
  real_to_dual_1d := fun v _ => v;
  stackable := fun _ => stack
|}.

(** *** Facts about the tensor variant *)

(** Case analysis on the index operations of an evaluator that returned. *)
Ltac bind_inv H :=
  repeat match type of H with
  | context [mbind _ ?x] =>
      let E := fresh "E" in destruct x eqn:E; simpl in H; [|discriminate]
  end.

Section TensorFacts.

Context {T : Type} `{TT : Tensortrax T}.

Lemma morph_with_inv quot C sv p out sv' :
  morph_with quot C sv p = Some (out, sv') ->
  exists CTSn CTG SA,
    history sv = Some CTSn /\ tresca (distortional C) = Some CTG /\
    sv' = try_stack [[Rmax CTG CTSn]; triu_1d C; triu_1d SA] sv.
Proof.
  unfold morph_with, history, tresca, distortional.
  intros H. bind_inv H.
  injection H as _ <-.
  eexists _, _, _. repeat split; reflexivity.
Qed.

Lemma try_stack_history CTS a b sv CTSn :
  history sv = Some CTSn ->
  history (try_stack ([CTS] :: a :: b :: nil) sv)
  = Some (if stackable ([CTS] :: a :: b :: nil) then CTS else CTSn).
Proof.
  intros Hsv. unfold try_stack.
  destruct (stackable _); [reflexivity | exact Hsv].
Qed.

Lemma morph_history_step C sv p out sv' :
  morph C sv p = Some (out, sv') ->
  exists CTSn h', history sv = Some CTSn /\ history sv' = Some h' /\
                  CTSn <= h'.
Proof.
  intros H. apply morph_with_inv in H as (CTSn & CTG & SA & Hh & _ & ->).
  exists CTSn. eexists. split; [exact Hh|].
  split; [apply try_stack_history; exact Hh|].
  destruct (stackable _); [apply Rmax_r | lra].
Qed.

Lemma morph_chain_sorted Cs : forall sv p svs h0,
  morph_chain Cs sv p = Some svs -> history sv = Some h0 ->
  exists hs, mapM history svs = Some hs /\ Sorted Rle (h0 :: hs).
Proof.
  induction Cs as [|C Cs IH]; intros sv p svs h0 H Hh; simpl in H.
  - injection H as <-. exists []. split; [reflexivity|].
    constructor; constructor.
  - destruct (morph C sv p) as [[out sv1]|] eqn:E1; simpl in H; [|discriminate].
    destruct (morph_chain Cs sv1 p) as [rest|] eqn:E2; simpl in H;
      [|discriminate].
    injection H as <-.
    apply morph_history_step in E1 as (CTSn & h1 & Hh' & Hh1 & Hle).
    assert (CTSn = h0) as -> by congruence.
    destruct (IH _ _ _ _ E2 Hh1) as (hs & Hm & Hs).
    exists (h1 :: hs). split.
    + cbn [mapM]. rewrite Hh1. cbn [mbind option_bind]. rewrite Hm.
      reflexivity.
    + constructor; [exact Hs | constructor; exact Hle].
Qed.

(** C1, amended: a call that returns has stacked the maximum of the current
    Tresca invariant and the previous history invariant as the history
    invariant of the new state, or, when [try_stack] fell back, has
    returned the previous state with its history invariant; in both cases
    the history invariant did not decrease, and along every chain of calls,
    each seeded with the state the preceding one returned, the history
    invariants are non-decreasing. *)
Theorem morph_history_ratchet :
  (forall C sv p out sv',
     morph C sv p = Some (out, sv') ->
     exists CTSn CTG SA h',
       let arrays := [[Rmax CTG CTSn]; triu_1d C; triu_1d SA] in
       history sv = Some CTSn /\
       tresca (distortional C) = Some CTG /\
       sv' = try_stack arrays sv /\
       history sv' = Some h' /\
       (stackable arrays = true -> h' = Rmax CTG CTSn) /\
       (stackable arrays = false -> sv' = sv /\ h' = CTSn) /\
       CTSn <= h') /\
  (forall Cs sv p svs h0,
     morph_chain Cs sv p = Some svs -> history sv = Some h0 ->
     exists hs, mapM history svs = Some hs /\ Sorted Rle (h0 :: hs)).
Proof.
  split; [|intros Cs; apply morph_chain_sorted].
  intros C sv p out sv' H.
  apply morph_with_inv in H as (CTSn & CTG & SA & Hh & Ht & ->).
  exists CTSn, CTG, SA. eexists. cbv zeta.
  split; [exact Hh|]. split; [exact Ht|]. split; [reflexivity|].
  split; [apply try_stack_history; exact Hh|].
  unfold try_stack.
  destruct (stackable _); repeat split; try discriminate; try reflexivity;
    try apply Rmax_r; lra.
Qed.

Lemma morph_with_guard quot quot' C sv p :
  tresca (incremental C sv) = Some 0 ->
  morph_with quot C sv p = morph_with quot' C sv p.
Proof.
  unfold tresca, incremental, distortional. intros Hz. bind_inv Hz.
  injection Hz as Hz.
  unfold morph_with. rewrite E, E0. cbn [mbind option_bind].
  unfold if_else.
  repeat match goal with
  | |- context [Rlt_dec ?a ?b] => destruct (Rlt_dec a b); [lra|]
  end.
  reflexivity.
Qed.

(** C4: when the Tresca-type invariant of the incremental tensor [LG] is
    exactly zero, the evaluator returns what it computes from [LG] itself
    in the place of the quotient, and its result is the same whatever the
    division by that invariant yields: nothing of that quotient reaches the
    output. *)
Theorem morph_degeneracy_guard C sv p :
  tresca (incremental C sv) = Some 0 ->
  morph C sv p = morph_with (fun LG _ => LG) C sv p /\
  forall quot, morph_with quot C sv p = morph C sv p.
Proof.
  intros Hz. split; [|intros quot]; apply morph_with_guard; exact Hz.
Qed.

Lemma morph_uniaxial_inv lam sv p ε out sv' :
  morph_uniaxial lam sv p ε = Some (out, sv') ->
  exists SA1 SA2,
    sv' = try_stack
            [maximum (uniaxial_tresca lam) (history21 sv); vsubs lam 1;
             SA1; SA2] sv.
Proof.
  unfold morph_uniaxial, history21. intros H. bind_inv H.
  injection H as _ <-.
  unfold array21 in E. destruct (Nat.eqb _ _); [|discriminate].
  injection E as <-.
  eexists _, _. reflexivity.
Qed.

(** C6: a call of either variant that returns has handed its previous state
    [statevars] to [try_stack] as the fallback, so that when the new state
    cannot be stacked the returned state is [statevars], unchanged. *)
Theorem morph_state_fallback :
  (forall C sv p out sv',
     morph C sv p = Some (out, sv') ->
     exists CTS SA,
       let arrays := [[CTS]; triu_1d C; triu_1d SA] in
       sv' = try_stack arrays sv /\ (stackable arrays = false -> sv' = sv)) /\
  (forall lam sv p ε out sv',
     morph_uniaxial lam sv p ε = Some (out, sv') ->
     exists CTS SA1 SA2,
       let arrays := [CTS; vsubs lam 1; SA1; SA2] in
       sv' = try_stack arrays sv /\ (stackable arrays = false -> sv' = sv)).
Proof.
  split.
  - intros C sv p out sv' H.
    apply morph_with_inv in H as (CTSn & CTG & SA & _ & _ & ->).
    eexists _, SA. cbv zeta. split; [reflexivity|].
    unfold try_stack. intros ->. reflexivity.
  - intros lam sv p ε out sv' H.
    apply morph_uniaxial_inv in H as (SA1 & SA2 & ->).
    eexists _, SA1, SA2. cbv zeta. split; [reflexivity|].
    unfold try_stack. intros ->. reflexivity.
Qed.

End TensorFacts.

(** C1, the claim as stated fails: when [try_stack] falls back, the history
    invariant of the returned state is the previous one, not the maximum.
    Here the distortional Tresca invariant of [diag(8, 1, 1)] is positive,
    the previous history invariant is 0, and the returned one is 0. *)
Lemma morph_history_not_maximum :
  exists (C : diag) (sv p : list R) out sv' CTSn CTG h',
    morph (TT := Diagonal false) C sv p = Some (out, sv') /\
    history sv = Some CTSn /\
    tresca (TT := Diagonal false) (distortional (TT := Diagonal false) C)
    = Some CTG /\
    history sv' = Some h' /\
    h' <> Rmax CTG CTSn.
Proof.
  exists (8, 1, 1), [0; 1; 0; 0; 1; 0; 1; 0; 0; 0; 0; 0; 0],
         [0.039; 0.371; 0.174; 2.41; 0.0094; 6.84; 5.65; 0.244].
  eexists _, _, _, _, _.
  split; [reflexivity|]. split; [reflexivity|]. split; [reflexivity|].
  split; [reflexivity|].
  simpl. set (s := Rpower (8 * 1 * 1) (-1 / 3)).
  assert (Hs : 0 < s) by (apply exp_pos).
  clearbody s.
  pose proof (Rmax_l (s * 8) (Rmax (s * 1) (s * 1))) as Hhi.
  assert (Hlo : Rmin (s * 8) (Rmin (s * 1) (s * 1)) <= s * 1)
    by (eapply Rle_trans; [apply Rmin_r | apply Rmin_l]).
  match goal with |- _ <> Rmax ?a 0 => pose proof (Rmax_l a 0) end.
  intros Heq. lra.
Qed.

(** C1, an instance: a call on a diagonal tensor, from the state of the
    undeformed material. *)
Lemma morph_history_ratchet_run :
  exists svs hs,
    morph_chain (TT := Diagonal true) [(4, 1, 1)]
      [0; 1; 0; 0; 1; 0; 1; 0; 0; 0; 0; 0; 0]
      [0.039; 0.371; 0.174; 2.41; 0.0094; 6.84; 5.65; 0.244] = Some svs /\
    mapM history svs = Some hs /\ Sorted Rle (0 :: hs).
Proof.
  eexists.
  destruct (proj2 (morph_history_ratchet (TT := Diagonal true))
              [(4, 1, 1)] [0; 1; 0; 0; 1; 0; 1; 0; 0; 0; 0; 0; 0]
              [0.039; 0.371; 0.174; 2.41; 0.0094; 6.84; 5.65; 0.244]
              _ 0 eq_refl eq_refl) as (hs & Hm & Hs).
  exists hs. split; [reflexivity|]. split; [exact Hm | exact Hs].
Defined.

(** C4, an instance: the strain measure [diag(4, 1, 1)] has not changed
    since the previous state, so the incremental invariant is zero. *)
Lemma morph_degeneracy_guard_run :
  let C := (4, 1, 1) in
  let sv := [0.5; 4; 0; 0; 1; 0; 1; 0; 0; 0; 0; 0; 0] in
  let p := [0.039; 0.371; 0.174; 2.41; 0.0094; 6.84; 5.65; 0.244] in
  tresca (TT := Diagonal true) (incremental (TT := Diagonal true) C sv)
  = Some 0 /\
  (morph (TT := Diagonal true) C sv p
   = morph_with (TT := Diagonal true) (fun LG _ => LG) C sv p /\
   forall quot,
     morph_with (TT := Diagonal true) quot C sv p
     = morph (TT := Diagonal true) C sv p).
Proof.
  intros C sv p.
  assert (Hz : tresca (TT := Diagonal true)
                 (incremental (TT := Diagonal true) C sv) = Some 0).
  { cbn. set (s := Rpower (4 * 1 * 1) (-1 / 3)). clearbody s.
    assert (H4 : / 4 * (4 - 4) = 0) by lra.
    assert (H1 : / 1 * (1 - 1) = 0) by lra.
    rewrite H4, H1.
    assert (H0 : 0 - (0 + 0 + 0) / 3 = 0) by lra.
    rewrite H0, !Rmult_0_l.
    unfold tresca, Py.item_last, Py.item. cbn. f_equal.
    rewrite !(Rmax_left 0 0), !(Rmin_left 0 0) by lra. lra. }
  split; [exact Hz|].
  exact (morph_degeneracy_guard (TT := Diagonal true) C sv p Hz).
Defined.

(** C6, an instance of each variant in which the new state cannot be
    stacked. *)
Lemma morph_state_fallback_run :
  let p := [0.039; 0.371; 0.174; 2.41; 0.0094; 6.84; 5.65; 0.244] in
  let sv13 := [0.5; 4; 0; 0; 1; 0; 1; 0; 0; 0; 0; 0; 0] in
  (exists out sv',
     morph (TT := Diagonal false) (9, 1, 1) sv13 p = Some (out, sv') /\
     sv' = sv13) /\
  (exists out sv',
     morph_uniaxial (TT := Diagonal false) (repeat 1.2 21) (repeat 0 84) p
       1e-8 = Some (out, sv') /\
     sv' = repeat 0 84).
Proof.
  intros p sv13. split.
  - eexists _, _. split; [reflexivity|].
    destruct (proj1 (morph_state_fallback (TT := Diagonal false))
                (9, 1, 1) sv13 p _ _ eq_refl) as (CTS & SA & _ & Hfb).
    apply Hfb. reflexivity.
  - eexists _, _. split; [reflexivity|].
    destruct (proj2 (morph_state_fallback (TT := Diagonal false))
                (repeat 1.2 21) (repeat 0 84) p 1e-8 _ _ eq_refl)
      as (CTS & SA1 & SA2 & _ & Hfb).
    apply Hfb. reflexivity.
Defined.

(** *** Facts about the uniaxial law *)

(** [CT] of one direction. *)
Definition tresca1 (x : R) : R := Rabs (x ^ 2 - 1 / x).

Lemma zip_with_length {A B C : Type} (f : A -> B -> C) a : forall b,
  length (Py.zip_with f a b) = Nat.min (length a) (length b).
Proof.
  induction a as [|x a IH]; intros [|y b]; simpl; try reflexivity.
  rewrite IH. reflexivity.
Qed.

Lemma zip_with_same_length {A B C : Type} (f : A -> B -> C) a b n :
  length a = n -> length b = n -> length (Py.zip_with f a b) = n.
Proof. intros Ha Hb. rewrite zip_with_length, Ha, Hb. apply Nat.min_id. Qed.

Lemma slice_length {A : Type} (a : list A) i j :
  (j <= length a)%nat -> length (Py.slice a i j) = (j - i)%nat.
Proof.
  intros Hj. unfold Py.slice. rewrite length_firstn, length_skipn. lia.
Qed.

Lemma history21_app a b :
  length a = 21%nat -> history21 (a ++ b) = a.
Proof.
  intros Ha. unfold history21, Py.slice. rewrite skipn_O.
  rewrite firstn_app, Ha. cbn [Nat.sub firstn]. rewrite app_nil_r.
  apply firstn_all2. lia.
Qed.

Lemma array21_some a : length a = 21%nat -> array21 a = Some a.
Proof. intros Ha. unfold array21. rewrite Ha. reflexivity. Qed.

Lemma item_some {A : Type} (a : list A) i :
  (i < length a)%nat -> exists x, Py.item a i = Some x.
Proof.
  intros Hi. unfold Py.item.
  destruct (nth_error a i) eqn:E; [eauto|].
  apply nth_error_None in E. lia.
Qed.

Lemma uniaxial_tresca_repeat x n :
  uniaxial_tresca (repeat x n) = repeat (tresca1 x) n.
Proof.
  induction n as [|n IH]; [reflexivity|].
  change (uniaxial_tresca (repeat x (S n)))
    with (tresca1 x :: uniaxial_tresca (repeat x n)).
  rewrite IH. reflexivity.
Qed.

Lemma tresca1_unit : tresca1 1 = 0.
Proof.
  unfold tresca1. replace (1 ^ 2 - 1 / 1) with 0 by lra. apply Rabs_R0.
Qed.

Lemma tresca1_stretched : tresca1 1.2 = 91 / 150.
Proof.
  unfold tresca1. replace (1.2 ^ 2 - 1 / 1.2) with (91 / 150) by lra.
  apply Rabs_pos_eq. lra.
Qed.

Lemma maximum_zero l :
  Forall (fun h => 0 <= h) l -> maximum (repeat 0 (length l)) l = l.
Proof.
  induction 1 as [|h l Hh _ IH]; [reflexivity|].
  simpl. unfold maximum in *. simpl. rewrite IH.
  rewrite Rmax_right by exact Hh. reflexivity.
Qed.

Lemma maximum_dominant c l :
  Forall (fun h => h <= c) l ->
  maximum (repeat c (length l)) l = repeat c (length l).
Proof.
  induction 1 as [|h l Hh _ IH]; [reflexivity|].
  simpl. unfold maximum in *. simpl. rewrite IH.
  rewrite Rmax_left by exact Hh. reflexivity.
Qed.

Lemma maximum_nonneg a : forall b,
  Forall (fun h => 0 <= h) b -> Forall (fun h => 0 <= h) (maximum a b).
Proof.
  induction a as [|x a IH]; intros b Hb; [constructor|].
  destruct Hb as [|y b Hy Hb]; [constructor|].
  unfold maximum in *. simpl. constructor; [|apply IH; exact Hb].
  pose proof (Rmax_r x y). lra.
Qed.

Section UniaxialFacts.

Context {T : Type} `{TT : Tensortrax T}.

(** Every array of the law has the 21 entries of its operands. *)
Ltac vlen :=
  unfold history21, uniaxial_tresca, vadd, vsub, vmul, vdiv, maximum, sadd,
    ssub, smul, sdiv, vsubs, vdivs, vpow, tensor_abs, vexp, vsigmoid;
  repeat first [ apply zip_with_same_length | rewrite length_map ];
  first [ assumption
        | rewrite slice_length by lia; lia
        | rewrite length_skipn; lia ].

(** One call with 21 stretches, a state of 84 entries and 8 parameters
    returns; the history invariants it returns are the previous ones or
    their maximum with the current Tresca invariants. *)
Lemma morph_uniaxial_step lam sv p ε :
  length lam = 21%nat -> length sv = 84%nat -> (8 <= length p)%nat ->
  exists out sv',
    morph_uniaxial lam sv p ε = Some (out, sv') /\
    length sv' = 84%nat /\
    (history21 sv' = history21 sv \/
     history21 sv' = maximum (uniaxial_tresca lam) (history21 sv)) /\
    ((forall arrays, stackable arrays = true) ->
     history21 sv' = maximum (uniaxial_tresca lam) (history21 sv)).
Proof.
  intros Hlam Hsv Hp. unfold morph_uniaxial.
  rewrite !array21_some by (rewrite ?slice_length, ?length_skipn; lia).
  destruct (item_some p 0) as (p0 & ->); [lia|].
  destruct (item_some p 1) as (p1 & ->); [lia|].
  destruct (item_some p 2) as (p2 & ->); [lia|].
  destruct (item_some p 3) as (p3 & ->); [lia|].
  destruct (item_some p 4) as (p4 & ->); [lia|].
  destruct (item_some p 5) as (p5 & ->); [lia|].
  destruct (item_some p 6) as (p6 & ->); [lia|].
  destruct (item_some p 7) as (p7 & ->); [lia|].
  cbn [mbind option_bind fmap option_fmap option_map].
  eexists _, _. split; [reflexivity|].
  unfold try_stack. destruct (stackable _) eqn:Estack.
  - assert (Hmax : forall rest,
              history21 (maximum (uniaxial_tresca lam) (history21 sv) ++ rest)
              = maximum (uniaxial_tresca lam) (history21 sv))
      by (intros rest; apply history21_app; vlen).
    split; [|split; [right | intros _]; cbn [concat]; apply Hmax].
    cbn [concat]. rewrite !length_app. cbn [length].
    assert (H1 : forall a b c d : nat,
               a = 21%nat -> b = 21%nat -> c = 21%nat -> d = 21%nat ->
               (a + (b + (c + (d + 0))) = 84)%nat) by (intros; lia).
    apply H1; vlen.
  - split; [exact Hsv|]. split; [left; reflexivity|].
    intros Hall. rewrite Hall in Estack. discriminate.
Qed.

(** C9: on the stretches 1.0, 1.2, 1.0 in every direction, each call seeded
    with the state the preceding one returned, from a state of non-negative
    history invariants: the Tresca invariant at 1.2 is |1.2^2 - 1/1.2|,
    which is 91/150 and within 0.0001 of 0.6067; at the third step the
    Tresca invariant is 0 again and the returned history invariants are
    those returned by the second step, which, when [try_stack] stacks and
    the history started at or below 91/150, are that Tresca invariant. *)
Theorem uniaxial_ratchet_scenario sv0 p ε :
  length sv0 = 84%nat -> (8 <= length p)%nat ->
  Forall (fun h => 0 <= h) (history21 sv0) ->
  uniaxial_tresca (repeat 1.2 21) = repeat (Rabs (1.2 ^ 2 - 1 / 1.2)) 21 /\
  Rabs (Rabs (1.2 ^ 2 - 1 / 1.2) - 0.6067) < 0.0001 /\
  uniaxial_tresca (repeat 1 21) = repeat 0 21 /\
  exists out1 sv1 out2 sv2 out3 sv3,
    morph_uniaxial (repeat 1 21) sv0 p ε = Some (out1, sv1) /\
    morph_uniaxial (repeat 1.2 21) sv1 p ε = Some (out2, sv2) /\
    morph_uniaxial (repeat 1 21) sv2 p ε = Some (out3, sv3) /\
    history21 sv3 = history21 sv2 /\
    ((forall arrays, stackable arrays = true) ->
     Forall (fun h => h <= 91 / 150) (history21 sv0) ->
     history21 sv2 = uniaxial_tresca (repeat 1.2 21)).
Proof.
  intros Hsv Hp H0.
  split; [apply uniaxial_tresca_repeat|].
  split.
  { fold (tresca1 1.2). rewrite tresca1_stretched.
    apply Rabs_def1; lra. }
  split; [rewrite uniaxial_tresca_repeat, tresca1_unit; reflexivity|].
  assert (Hlen21 : forall sv, length sv = 84%nat ->
                              length (history21 sv) = 21%nat)
    by (intros sv Hl; unfold history21; rewrite slice_length; lia).
  assert (Hstep : forall lam sv,
            length lam = 21%nat -> length sv = 84%nat ->
            Forall (fun h => 0 <= h) (history21 sv) ->
            exists out sv',
              morph_uniaxial lam sv p ε = Some (out, sv') /\
              length sv' = 84%nat /\
              Forall (fun h => 0 <= h) (history21 sv') /\
              (history21 sv' = history21 sv \/
               history21 sv' = maximum (uniaxial_tresca lam) (history21 sv)) /\
              ((forall arrays, stackable arrays = true) ->
               history21 sv'
               = maximum (uniaxial_tresca lam) (history21 sv))).
  { intros lam sv Hlam Hlen Hnn.
    destruct (morph_uniaxial_step lam sv p ε Hlam Hlen Hp)
      as (out & sv' & E & Hlen' & Hh & Hst).
    exists out, sv'. repeat split; try assumption.
    destruct Hh as [-> | ->]; [exact Hnn | apply maximum_nonneg, Hnn]. }
  destruct (Hstep (repeat 1 21) sv0 eq_refl Hsv H0)
    as (out1 & sv1 & E1 & Hl1 & Hn1 & _ & Hs1).
  destruct (Hstep (repeat 1.2 21) sv1 eq_refl Hl1 Hn1)
    as (out2 & sv2 & E2 & Hl2 & Hn2 & _ & Hs2).
  destruct (Hstep (repeat 1 21) sv2 eq_refl Hl2 Hn2)
    as (out3 & sv3 & E3 & _ & _ & Hh3 & _).
  exists out1, sv1, out2, sv2, out3, sv3.
  split; [exact E1|]. split; [exact E2|]. split; [exact E3|]. split.
  - destruct Hh3 as [-> | ->]; [reflexivity|].
    rewrite uniaxial_tresca_repeat, tresca1_unit.
    rewrite <- (Hlen21 sv2 Hl2). apply maximum_zero, Hn2.
  - intros Hall Hle.
    assert (H1 : history21 sv1 = history21 sv0).
    { rewrite (Hs1 Hall), uniaxial_tresca_repeat, tresca1_unit.
      rewrite <- (Hlen21 sv0 Hsv). apply maximum_zero, H0. }
    rewrite (Hs2 Hall), H1, uniaxial_tresca_repeat, tresca1_stretched.
    rewrite <- (Hlen21 sv0 Hsv). apply maximum_dominant, Hle.
Qed.

End UniaxialFacts.

(** C9, an instance: the undeformed material, the parameters of the
    docstring, and a [try_stack] that stacks. *)
Lemma uniaxial_ratchet_scenario_run :
  let sv0 := repeat 0 84 in
  let p := [0.011; 0.408; 0.421; 6.85; 0.0056; 5.54; 5.84; 0.117] in
  exists out1 sv1 out2 sv2 out3 sv3,
    morph_uniaxial (TT := Diagonal true) (repeat 1 21) sv0 p 1e-8
    = Some (out1, sv1) /\
    morph_uniaxial (TT := Diagonal true) (repeat 1.2 21) sv1 p 1e-8
    = Some (out2, sv2) /\
    morph_uniaxial (TT := Diagonal true) (repeat 1 21) sv2 p 1e-8
    = Some (out3, sv3) /\
    history21 sv3 = history21 sv2 /\
    history21 sv2 = uniaxial_tresca (repeat 1.2 21).
Proof.
  intros sv0 p.
  assert (H0 : Forall (fun h => 0 <= h) (history21 sv0)).
  { unfold sv0, history21, Py.slice. cbn [skipn firstn repeat Nat.sub].
    repeat (apply List.Forall_cons; [lra|]). apply List.Forall_nil. }
  assert (H1 : Forall (fun h => h <= 91 / 150) (history21 sv0)).
  { unfold sv0, history21, Py.slice. cbn [skipn firstn repeat Nat.sub].
    repeat (apply List.Forall_cons; [lra|]). apply List.Forall_nil. }
  destruct (proj2 (proj2 (proj2
              (uniaxial_ratchet_scenario (TT := Diagonal true) sv0 p 1e-8
                 eq_refl (le_n 8) H0))))
    as (out1 & sv1 & out2 & sv2 & out3 & sv3 & E1 & E2 & E3 & H32 & H2).
  exists out1, sv1, out2, sv2, out3, sv3.
  repeat split; try assumption.
  apply H2; [reflexivity | exact H1].
Defined.

(** *** The algebraic sigmoid *)

Lemma sigmoid_root (x : R) : 1 <= sqrt (1 + x ^ 2).
Proof.
  rewrite <- sqrt_1 at 1.
  apply sqrt_le_1_alt. nra.
Qed.





(** *** Further facts about the evaluators *)

(** X1: the sigmoid is even, and it does not grow with the magnitude of
    its argument. *)
Theorem sigmoid_even_antitone (x y : R) :
  sigmoid (- x) = sigmoid x /\
  (Rabs x <= Rabs y -> sigmoid y <= sigmoid x).
Proof.
  unfold sigmoid. split.
  - replace ((- x) ^ 2) with (x ^ 2) by ring. reflexivity.
  - intros Hxy.
    pose proof (sigmoid_root x) as Hx.
    assert (Hsq : x ^ 2 <= y ^ 2).
    { replace (x ^ 2) with (Rabs x * Rabs x)
        by (rewrite <- Rabs_mult; replace (x * x) with (x ^ 2) by ring;
            apply Rabs_pos_eq, pow2_ge_0).
      replace (y ^ 2) with (Rabs y * Rabs y)
        by (rewrite <- Rabs_mult; replace (y * y) with (y ^ 2) by ring;
            apply Rabs_pos_eq, pow2_ge_0).
      pose proof (Rabs_pos x). nra. }
    assert (Hs : sqrt (1 + x ^ 2) <= sqrt (1 + y ^ 2))
      by (apply sqrt_le_1_alt; lra).
    unfold Rdiv. rewrite !Rmult_1_l.
    apply Rinv_le_contravar; lra.
Qed.

Lemma sigmoid_even_antitone_run :
  Rabs 1 <= Rabs (-2) /\ sigmoid (-2) <= sigmoid 1.
Proof.
  assert (H : Rabs 1 <= Rabs (-2)).
  { rewrite Rabs_pos_eq by lra. rewrite Rabs_left by lra. lra. }
  split; [exact H|].
  exact (proj2 (sigmoid_even_antitone 1 (-2)) H).
Defined.

Section TensorMore.

Context {T : Type} `{TT : Tensortrax T}.

Lemma item_firstn {A : Type} (a : list A) n i :
  (i < n)%nat -> Py.item (firstn n a) i = Py.item a i.
Proof.
  intros Hi. unfold Py.item. rewrite nth_error_firstn.
  destruct (Nat.ltb_spec i n); [reflexivity | lia].
Qed.

Lemma item_short {A : Type} (a : list A) i :
  (length a <= i)%nat -> Py.item a i = None.
Proof. intros Hi. unfold Py.item. apply nth_error_None. exact Hi. Qed.

(** X2: the evaluator reads the first eight material parameters and no
    other; with fewer than eight it raises. *)
Theorem morph_parameters C sv p :
  morph C sv p = morph C sv (firstn 8 p) /\
  ((length p < 8)%nat -> morph C sv p = None).
Proof.
  split.
  - unfold morph, morph_with. rewrite !item_firstn by lia. reflexivity.
  - intros Hp. unfold morph, morph_with.
    rewrite (item_short p 7) by lia.
    repeat first
      [ reflexivity
      | progress cbn [mbind option_bind]
      | match goal with |- mbind _ ?x = None => destruct x end ].
Qed.

(** X3: when [try_stack] stacks, the state returned is the history
    invariant, then the six components of [C], then those of the overstress
    [SA]; the next call reads from it the tensor that [C] was stored as. *)
Theorem morph_state_layout C sv p out sv' :
  morph C sv p = Some (out, sv') ->
  (forall arrays, stackable arrays = true) ->
  length (triu_1d C) = 6%nat ->
  exists CTS SA,
    sv' = CTS :: triu_1d C ++ triu_1d SA /\
    history sv' = Some CTS /\
    Py.slice sv' 1 7 = triu_1d C /\
    skipn 7 sv' = triu_1d SA.
Proof.
  intros H Hstack Hlen.
  apply morph_with_inv in H as (CTSn & CTG & SA & _ & _ & ->).
  exists (Rmax CTG CTSn), SA. unfold try_stack. rewrite Hstack.
  cbn [concat app]. rewrite app_nil_r.
  split; [reflexivity|]. split; [reflexivity|].
  unfold Py.slice. split.
  - change (firstn 6 (triu_1d C ++ triu_1d SA) = triu_1d C).
    rewrite firstn_app, Hlen. cbn [Nat.sub firstn]. rewrite app_nil_r.
    apply firstn_all2. lia.
  - change (skipn 6 (triu_1d C ++ triu_1d SA) = triu_1d SA).
    rewrite skipn_app, Hlen. cbn [Nat.sub skipn].
    rewrite skipn_all2 by lia. reflexivity.
Qed.

End TensorMore.

Lemma morph_parameters_run :
  morph (TT := Diagonal true) (4, 1, 1)
    [0; 1; 0; 0; 1; 0; 1; 0; 0; 0; 0; 0; 0]
    [0.039; 0.371; 0.174; 2.41; 0.0094; 6.84; 5.65] = None.
Proof.
  apply (proj2 (morph_parameters (TT := Diagonal true) (4, 1, 1)
                  [0; 1; 0; 0; 1; 0; 1; 0; 0; 0; 0; 0; 0]
                  [0.039; 0.371; 0.174; 2.41; 0.0094; 6.84; 5.65])).
  cbn. lia.
Defined.

Lemma morph_state_layout_run :
  exists out sv' CTS SA,
    morph (TT := Diagonal true) (4, 1, 1)
      [0; 1; 0; 0; 1; 0; 1; 0; 0; 0; 0; 0; 0]
      [0.039; 0.371; 0.174; 2.41; 0.0094; 6.84; 5.65; 0.244]
    = Some (out, sv') /\
    sv' = CTS :: [4; 0; 0; 1; 0; 1] ++ diag_triu_1d SA /\
    Py.slice sv' 1 7 = [4; 0; 0; 1; 0; 1].
Proof.
  eexists _, _.
  destruct (morph_state_layout (TT := Diagonal true) (4, 1, 1)
              [0; 1; 0; 0; 1; 0; 1; 0; 0; 0; 0; 0; 0]
              [0.039; 0.371; 0.174; 2.41; 0.0094; 6.84; 5.65; 0.244]
              _ _ eq_refl (fun _ => eq_refl) eq_refl)
    as (CTS & SA & Hsv & _ & Hslice & _).
  exists CTS, SA. split; [reflexivity|]. split; [exact Hsv | exact Hslice].
Defined.

(** *** Further facts about the uniaxial law *)

Lemma array21_inv a b : array21 a = Some b -> length a = 21%nat /\ b = a.
Proof.
  unfold array21. destruct (Nat.eqb_spec (length a) 21); [|discriminate].
  intros [= <-]. split; [assumption | reflexivity].
Qed.

Lemma item_some_lt {A : Type} (a : list A) i x :
  Py.item a i = Some x -> (i < length a)%nat.
Proof. unfold Py.item. intros H. apply nth_error_Some. congruence. Qed.

Lemma Forall2_Rle_refl l : Forall2 Rle l l.
Proof. induction l; constructor; [lra | assumption]. Qed.

Lemma maximum_ge a : forall b,
  length a = length b ->
  Forall2 Rle a (maximum a b) /\ Forall2 Rle b (maximum a b).
Proof.
  induction a as [|x a IH]; intros [|y b] Hl; try discriminate.
  - split; constructor.
  - injection Hl as Hl. destruct (IH b Hl) as [Ha Hb].
    unfold maximum in *. cbn [Py.zip_with].
    split; constructor; try assumption; [apply Rmax_l | apply Rmax_r].
Qed.

Lemma uniaxial_tresca_nonneg lam :
  Forall (fun h => 0 <= h) (uniaxial_tresca lam).
Proof.
  unfold uniaxial_tresca, tensor_abs.
  induction (vsub (vpow lam 2) (sdiv 1 lam)) as [|x l IH]; cbn [map];
    constructor; [apply Rabs_pos | exact IH].
Qed.

Lemma Forall2_Rle_nonneg a b :
  Forall (fun h => 0 <= h) a -> Forall2 Rle a b -> Forall (fun h => 0 <= h) b.
Proof.
  intros Ha H. induction H as [|x y a b Hxy _ IH]; [constructor|].
  inversion Ha; subst. constructor; [lra | apply IH; assumption].
Qed.






Section UniaxialMore.

Context {T : Type} `{TT : Tensortrax T}.

Ltac lengths21 :=
  unfold history21, uniaxial_tresca, vadd, vsub, vmul, vdiv, maximum, sadd,
    ssub, smul, sdiv, vsubs, vdivs, vpow, tensor_abs, vexp, vsigmoid;
  repeat first [ apply zip_with_same_length | rewrite length_map ];
  first [ assumption
        | rewrite slice_length by lia; lia
        | rewrite length_skipn; lia
        | rewrite repeat_length; first [ assumption | lia ] ].

(** A call that returns was given 21 stretches, a state of 84 entries and
    at least 8 parameters. *)
Lemma morph_uniaxial_lengths lam sv p ε out sv' :
  morph_uniaxial lam sv p ε = Some (out, sv') ->
  length lam = 21%nat /\ length sv = 84%nat /\ (8 <= length p)%nat.
Proof.
  unfold morph_uniaxial. intros H. bind_inv H.
  apply array21_inv in E as [E _]. apply array21_inv in E2 as [E2 _].
  apply array21_inv in E3 as [E3 _]. apply item_some_lt in E11.
  unfold Py.slice in E. rewrite length_firstn, length_skipn in E.
  rewrite length_skipn in E2.
  repeat split; lia.
Qed.

(** X4: in each of the 21 directions the history invariant that a call
    returns is not below the one it was given, and, when [try_stack]
    stacks, not below the current Tresca invariant, which is not
    negative. *)
Theorem morph_uniaxial_ratchet lam sv p ε out sv' :
  morph_uniaxial lam sv p ε = Some (out, sv') ->
  Forall2 Rle (history21 sv) (history21 sv') /\
  ((forall arrays, stackable arrays = true) ->
   Forall2 Rle (uniaxial_tresca lam) (history21 sv') /\
   Forall (fun h => 0 <= h) (history21 sv')).
Proof.
  intros H.
  destruct (morph_uniaxial_lengths _ _ _ _ _ _ H) as (Hlam & Hsv & Hp).
  destruct (morph_uniaxial_step lam sv p ε Hlam Hsv Hp)
    as (out2 & sv2 & E & _ & Hh & Hst).
  rewrite H in E. injection E as <- <-.
  assert (Hl : length (uniaxial_tresca lam) = length (history21 sv))
    by (transitivity 21%nat; [|symmetry]; lengths21).
  destruct (maximum_ge _ _ Hl) as [Hty Hhy].
  split.
  - destruct Hh as [-> | ->]; [apply Forall2_Rle_refl | exact Hhy].
  - intros Hall. rewrite (Hst Hall). split; [exact Hty|].
    eapply Forall2_Rle_nonneg; [apply uniaxial_tresca_nonneg | exact Hty].
Qed.

(** X5: a state vector that does not hold 84 entries, or a parameter list
    of fewer than 8, makes the call raise. *)
Theorem morph_uniaxial_shape lam sv p ε :
  length sv <> 84%nat \/ (length p < 8)%nat ->
  morph_uniaxial lam sv p ε = None.
Proof.
  intros Hbad.
  destruct (morph_uniaxial lam sv p ε) as [[out sv']|] eqn:E; [|reflexivity].
  apply morph_uniaxial_lengths in E. lia.
Qed.



End UniaxialMore.


Lemma morph_uniaxial_ratchet_run :
  exists out sv',
    morph_uniaxial (TT := Diagonal true) (repeat 1.2 21) (repeat 0 84)
      [0.011; 0.408; 0.421; 6.85; 0.0056; 5.54; 5.84; 0.117] 1e-8
    = Some (out, sv') /\
    Forall2 Rle (history21 (repeat 0 84)) (history21 sv') /\
    Forall (fun h => 0 <= h) (history21 sv').
Proof.
  eexists _, _. split; [reflexivity|].
  destruct (morph_uniaxial_ratchet (TT := Diagonal true) (repeat 1.2 21)
              (repeat 0 84)
              [0.011; 0.408; 0.421; 6.85; 0.0056; 5.54; 5.84; 0.117] 1e-8
              _ _ eq_refl) as (Hr & Hs).
  split; [exact Hr|]. exact (proj2 (Hs (fun _ => eq_refl))).
Defined.

Lemma morph_uniaxial_shape_run :
  morph_uniaxial (TT := Diagonal true) (repeat 1.2 21) (repeat 0 13)
    [0.011; 0.408; 0.421; 6.85; 0.0056; 5.54; 5.84; 0.117] 1e-8 = None.
Proof.
  apply (morph_uniaxial_shape (TT := Diagonal true)).
  left. cbn. lia.
Defined.


End Morph.

(** ** The solver utilities of [felupe/utils.py] *)

Module Utils.

Abbreviation float := PrimFloat.float.

(** [np.split(ary, indices)]: the sub-arrays [ary[0:i1]], [ary[i1:i2]], ...,
    [ary[ik:]]. *)
Fixpoint split_from {A : Type} (ary : list A) (start : nat)
  (indices : list nat) : list (list A) :=
  match indices with
  | [] => [skipn start ary]
  | i :: rest => Py.slice ary start i :: split_from ary i rest
  end.

Definition split {A : Type} (ary : list A) (indices : list nat)
  : list (list A) :=
  split_from ary 0 indices.

(** [a[dof]] for an array of indices [dof]; [None] stands for
    [IndexError]. *)
Definition take_dofs {A : Type} (a : list A) (dof : list nat)
  : option (list A) :=
  mapM (Py.item a) dof.

(** [np.any(np.isnan(a))]. *)
Definition any_isnan (a : list float) : bool := existsb PrimFloat.is_nan a.

(** The collaborators of the corrector and of the driver, which [utils.py]
    imports from the modules [forms], [solve], [math], [field] and
    [doftools] of the package. *)
Class Collaborators := {
  Region : Type;
  Field : Type;
  Tensor : Type;
  Interpolated : Type;
  Stress : Type;
  Elasticity : Type;
  Weights : Type;
  Matrix : Type;
  System : Type;
  Boundary : Type;
  dV : Region -> Weights;                              (* region.dV *)
  grad : Field -> Tensor;
  identity : Tensor -> Tensor;
  tensor_add : Tensor -> Tensor -> Tensor;
  interpolate : Field -> Interpolated;
  (* IntegralFormMixed(f, fields, dV).assemble().toarray()[:, 0] *)
  assemble_vector : Stress -> list Field -> Weights -> list float;
  (* IntegralFormMixed(A, fields, dV).assemble() *)
  assemble_matrix : Elasticity -> list Field -> Weights -> Matrix;
  partition :
    list Field -> list float -> Matrix -> list nat -> list nat -> System;
  solve : System -> list float -> list float;
  field_add : Field -> list float -> Field;            (* field.add(dfield) *)
  norm : list float -> float;                          (* np.linalg.norm *)
  norms : list (list float) -> list float;
  (* doftools.partition: (dof0, dof1, unstack) *)
  dofpartition :
    list Field -> gmap string Boundary -> list nat * list nat * list nat;
  apply : Field -> gmap string Boundary -> list nat -> list float;
  set_value : Boundary -> float -> Boundary            (* bound.value = v *)
}.

Section Corrector.

Context `{Co : Collaborators}.

(** The namedtuple [Result]. *)
Record Result := {
  fields : list Field;
  r : list float;
  K : Matrix;
  F : Tensor;
  f : Stress;
  A : Elasticity;
  unstack : list nat;
  converged : bool
}.

(** The variables of [newtonrhapson] which its loop reads and assigns. *)
Record Locals := {
  l_fields : list Field;
  l_r : list float;
  l_K : Matrix;
  l_F : Tensor;
  l_f : Stress;
  l_A : Elasticity
}.

(** How the loop was left: by the [break] of line 89, by the [break] of
    line 116, or because [range(maxiter)] was exhausted. *)
Inductive Outcome := Diverged | Converged | MaxIterExceeded.

(** A line printed by line 112. *)
Record Info := {
  info_iteration : nat;            (* iteration + 1 *)
  norm_r : float;
  norm_dfields : list float
}.

(** [for field, dfield in zip(fields, dfields): field.add(dfield)]: the
    fields beyond the shorter of the two lists are left as they are. *)
Fixpoint add_fields (fs : list Field) (dfields : list (list float))
  : list Field :=
  match fs, dfields with
  | field :: fs', dfield :: dfields' =>
      field_add field dfield :: add_fields fs' dfields'
  | _, _ => fs
  end.

(** [identity(grad(fields[0])) + grad(fields[0])]. *)
Definition deformation_gradient (fs : list Field) : option Tensor :=
  u ← Py.item fs 0;
  Some (tensor_add (identity (grad u)) (grad u)).

(** Lines 103-105. *)
Definition reference (rref : float) : float :=
  if PrimFloat.eqb rref PrimFloat.zero then PrimFloat.one else rref.

(** Lines 103-106: [norm_r] of the residual [r]. *)
Definition residual_norm (dof1 dof0 : list nat) (r : list float)
  : option float :=
  r0 ← take_dofs r dof0;
  let rref := reference (norm r0) in
  r1 ← take_dofs r dof1;
  Some (PrimFloat.div (norm r1) rref).

Section Loop.

Variables (region : Region) (u0ext : list float).
Variables (fun_f : Tensor -> list Interpolated -> Stress).
Variables (fun_A : Tensor -> list Interpolated -> Elasticity).
Variables (dof1 dof0 unstack_ : list nat) (tol : float).

(** The correction of lines 85-86. *)
Definition correction (st : Locals) : list (list float) :=
  let system := partition (l_fields st) (l_r st) (l_K st) dof1 dof0 in
  split (solve system u0ext) unstack_.

(** The loop of lines 83-122, with [n] iterations left; the result holds
    the variables at the exit, how the loop was left, the lines printed
    and the number of iterations entered. *)
Fixpoint newton_loop (n iteration : nat) (st : Locals)
  : option (Locals * Outcome * list Info * nat) :=
  match n with
  | O => Some (st, MaxIterExceeded, [], iteration)
  | S n' =>
      let dfields := correction st in
      dfields_0 ← Py.item dfields 0;
      if any_isnan dfields_0 then
        Some (st, Diverged, [], S iteration)
      else
        let fields' := add_fields (l_fields st) dfields in
        (* deformation gradient at integration points *)
        F' ← deformation_gradient fields';
        (* PK1 stress *)
        let f' := fun_f F' (map interpolate (skipn 1 fields')) in
        (* residuals *)
        let r' := assemble_vector f' fields' (dV region) in
        norm_r' ← residual_norm dof1 dof0 r';
        let info :=
          {| info_iteration := iteration + 1; norm_r := norm_r';
             norm_dfields := norms dfields |} in
        if PrimFloat.ltb norm_r' tol then
          Some ({| l_fields := fields'; l_r := r'; l_K := l_K st;
                   l_F := F'; l_f := f'; l_A := l_A st |},
                Converged, [info], S iteration)
        else
          (* elasticity matrix and assembly of the stiffness matrix *)
          let A' := fun_A F' (map interpolate (skipn 1 fields')) in
          let K' := assemble_matrix A' fields' (dV region) in
          out ← newton_loop n' (S iteration)
                  {| l_fields := fields'; l_r := r'; l_K := K';
                     l_F := F'; l_f := f'; l_A := A' |};
          let '(st', outcome, printed, iterations) := out in
          Some (st', outcome, info :: printed, iterations)
  end.

(** Lines 71-79: the variables at the entry of the loop. *)
Definition initial (fs : list Field) : option Locals :=
  (* deformation gradient at integration points *)
  F0 ← deformation_gradient fs;
  (* PK1 stress and elasticity matrix *)
  let f0 := fun_f F0 (map interpolate (skipn 1 fs)) in
  let A0 := fun_A F0 (map interpolate (skipn 1 fs)) in
  (* assembly *)
  let r0 := assemble_vector f0 fs (dV region) in
  let K0 := assemble_matrix A0 fs (dV region) in
  Some {| l_fields := fs; l_r := r0; l_K := K0; l_F := F0; l_f := f0;
          l_A := A0 |}.

(** Lines 124-128: the record returned; [copy(fields)] is the list of the
    values of the fields. *)
Definition result (st : Locals) (outcome : Outcome) : Result :=
  {| fields := l_fields st; r := l_r st; K := l_K st; F := l_F st;
     f := l_f st; A := l_A st; unstack := unstack_;
     converged := match outcome with Converged => true | _ => false end |}.

(** [newtonrhapson(region, fields, u0ext, fun_f, fun_A, dof1, dof0,
    unstack, maxiter, tol)], lines 68-128: the result record, with the
    lines printed and the number of iterations entered. *)
Definition newtonrhapson (fs : list Field) (maxiter : Z)
  : option (Result * list Info * nat) :=
  st0 ← initial fs;
  out ← newton_loop (Z.to_nat maxiter) 0 st0;
  let '(st, outcome, printed, iterations) := out in
  Some (result st outcome, printed, iterations).

End Loop.

(** *** The increment driver *)

(** What [incsolve] does besides computing its result: the corrector
    calls, each with the record it returned, and the files written by
    [save] and [savehistory].  The lines it prints are left out. *)
Inductive Event :=
  | Corrected (res : Result)
  | Saved (res : Result)
  | SavedHistory (res : list Result).


Section Driver.

Variables (region : Region).
Variables (f_ : Tensor -> list Interpolated -> Stress).
Variables (A_ : Tensor -> list Interpolated -> Elasticity).
Variables (boundary : string) (maxiter : Z) (tol : float).
Variables (dof0 dof1 unstack_ : list nat).

(** The loop of lines 150-174 over the remaining values of [move]; [res]
    is the list appended to.  [None] stands for a [KeyError] of
    [bounds[boundary]], an [IndexError] of [fields[0]] and for whatever the
    corrector raises. *)
Fixpoint incsolve_loop (move : list float) (fs : list Field)
  (bounds : gmap string Boundary) (res : list Result)
  : option (list Result * list Event) :=
  match move with
  | [] => Some (res, [])
  | move_t :: move' =>
      (* set new value on boundary *)
      bound ← bounds !! boundary;
      let bounds := <[boundary := set_value bound move_t]> bounds in
      (* obtain external displacements for prescribed dofs *)
      u ← Py.item fs 0;
      let u0ext := apply u bounds dof0 in
      out ← newtonrhapson region u0ext f_ A_ dof1 dof0 unstack_ tol fs
              maxiter;
      let Result_ := out.1.1 in
      let fs := fields Result_ in
      if negb (converged Result_) then
        (* reset counter for last converged increment and break *)
        Some (res, [Corrected Result_])
      else
        (* save results and go to next increment *)
        let res := res ++ [Result_] in
        out' ← incsolve_loop move' fs bounds res;
        Some (out'.1, Corrected Result_ :: Saved Result_ :: out'.2)
  end.

End Driver.

(** [incsolve(fields, region, f, A, bounds, move, boundary, filename,
    maxiter, tol, parallel)], lines 145-178: the list [res] it returns and
    the trace of its effects. *)
Definition incsolve (fs : list Field) (region : Region)
  (f_ : Tensor -> list Interpolated -> Stress)
  (A_ : Tensor -> list Interpolated -> Elasticity)
  (bounds : gmap string Boundary) (move : list float) (boundary : string)
  (maxiter : Z) (tol : float) : option (list Result * list Event) :=
  let res := [] in
  (* dofs to dismiss and to keep *)
  let '(dof0, dof1, unstack_) := dofpartition fs bounds in
  (* solve newton iterations and save result *)
  out ← incsolve_loop region f_ A_ boundary maxiter tol dof0 dof1 unstack_
          move fs bounds res;
  Some (out.1, out.2 ++ [SavedHistory out.1]).

End Corrector.

(** *** Facts about the corrector *)

Section CorrectorFacts.

Context `{Co : Collaborators}.

Variables (region : Region) (u0ext : list float).
Variables (fun_f : Tensor -> list Interpolated -> Stress).
Variables (fun_A : Tensor -> list Interpolated -> Elasticity).
Variables (dof1 dof0 unstack_ : list nat) (tol : float).

Let loop := newton_loop region u0ext fun_f fun_A dof1 dof0 unstack_ tol.

Lemma reference_not_zero (rref : float) :
  PrimFloat.eqb (reference rref) PrimFloat.zero = false.
Proof.
  unfold reference.
  destruct (PrimFloat.eqb rref PrimFloat.zero) eqn:E; [reflexivity | exact E].
Qed.

(** C5: the ratio [norm_r] is the norm of the residual of the free DOFs over
    a reference value which is 1 whenever the norm of the residual of the
    prescribed DOFs is zero, and which is never zero. *)
Theorem residual_norm_reference (res : list float) (v : float) :
  residual_norm dof1 dof0 res = Some v ->
  exists r0 r1,
    take_dofs res dof0 = Some r0 /\ take_dofs res dof1 = Some r1 /\
    v = PrimFloat.div (norm r1) (reference (norm r0)) /\
    (PrimFloat.eqb (norm r0) PrimFloat.zero = true ->
     reference (norm r0) = PrimFloat.one) /\
    PrimFloat.eqb (reference (norm r0)) PrimFloat.zero = false.
Proof.
  unfold residual_norm. intros H.
  destruct (take_dofs res dof0) as [r0|] eqn:E0; [|discriminate].
  destruct (take_dofs res dof1) as [r1|] eqn:E1; [|discriminate].
  injection H as <-. exists r0, r1.
  repeat split; [|apply reference_not_zero].
  intros Hz. unfold reference. rewrite Hz. reflexivity.
Qed.

(** The loop without its last [m] iterations, when it is not left by a
    [break]. *)
Lemma newton_loop_app k : forall m iteration st st' printed j,
  loop k iteration st = Some (st', MaxIterExceeded, printed, j) ->
  j = (iteration + k)%nat /\
  loop (k + m) iteration st
  = (out ← loop m j st';
     Some (out.1.1.1, out.1.1.2, printed ++ out.1.2, out.2)).
Proof.
  unfold loop.
  induction k as [|k IH]; intros m iteration st st' printed j H.
  - injection H as <- <- <-. split; [lia|].
    cbn [Nat.add app].
    destruct (newton_loop _ _ _ _ _ _ _ _ m iteration st)
      as [[[[s o] p] i]|]; reflexivity.
  - cbn [Nat.add newton_loop] in *.
    destruct (Py.item _ 0) as [d0|]; [|discriminate].
    cbn [mbind option_bind] in *.
    destruct (any_isnan d0); [discriminate|].
    destruct (deformation_gradient _) as [F'|]; [|discriminate].
    cbn [mbind option_bind] in *.
    destruct (residual_norm _ _ _) as [nr|]; [|discriminate].
    cbn [mbind option_bind] in *.
    destruct (PrimFloat.ltb nr tol); [discriminate|].
    match type of H with
    | context [newton_loop _ _ _ _ _ _ _ _ k (S iteration) ?s] =>
        destruct (newton_loop region u0ext fun_f fun_A dof1 dof0 unstack_
                    tol k (S iteration) s)
          as [[[[s1 o1] p1] i1]|] eqn:E; [|discriminate];
        cbn [mbind option_bind] in H;
        injection H as Hs Ho Hp Hi; subst s1 o1 printed i1;
        destruct (IH m _ _ _ _ _ E) as [Hj ->]
    end.
    split; [lia|]. cbn [mbind option_bind]. subst j.
    destruct (newton_loop _ _ _ _ _ _ _ _ m _ st')
      as [[[[s2 o2] p2] i2]|]; reflexivity.
Qed.

(** What a run of the loop that returns has counted and printed. *)
Lemma newton_loop_cap n : forall iteration st st' outcome printed j,
  loop n iteration st = Some (st', outcome, printed, j) ->
  (iteration <= j <= iteration + n)%nat /\
  (Forall (fun e => PrimFloat.ltb (norm_r e) tol = false) printed ->
   outcome <> Converged).
Proof.
  unfold loop.
  induction n as [|n IH]; intros iteration st st' outcome printed j H.
  - injection H as <- <- <- <-. split; [lia | discriminate].
  - cbn [newton_loop] in H.
    destruct (Py.item _ 0) as [d0|]; [|discriminate].
    cbn [mbind option_bind] in H.
    destruct (any_isnan d0).
    { injection H as <- <- <- <-. split; [lia | discriminate]. }
    destruct (deformation_gradient _) as [F'|]; [|discriminate].
    cbn [mbind option_bind] in H.
    destruct (residual_norm _ _ _) as [nr|]; [|discriminate].
    cbn [mbind option_bind] in H.
    destruct (PrimFloat.ltb nr tol) eqn:Etol.
    { injection H as <- <- <- <-. split; [lia|].
      intros Hall. apply Forall_inv in Hall. cbn in Hall. congruence. }
    match type of H with
    | context [newton_loop _ _ _ _ _ _ _ _ n (S iteration) ?s] =>
        destruct (newton_loop region u0ext fun_f fun_A dof1 dof0 unstack_
                    tol n (S iteration) s)
          as [[[[s1 o1] p1] i1]|] eqn:E; [|discriminate];
        cbn [mbind option_bind] in H;
        injection H as <- <- <- <-;
        destruct (IH _ _ _ _ _ _ E) as [Hj Hc]
    end.
    split; [lia|].
    intros Hall. apply Hc. exact (Forall_inv_tail Hall).
Qed.

Lemma add_fields_nonempty (fs : list Field) dfields :
  fs <> [] -> add_fields fs dfields <> [].
Proof. destruct fs, dfields; simpl; congruence. Qed.

Lemma deformation_gradient_some (fs : list Field) :
  fs <> [] -> is_Some (deformation_gradient fs).
Proof. destruct fs; [congruence|]. intros _. eexists. reflexivity. Qed.

Lemma split_first {X : Type} (ary : list X) indices :
  is_Some (Py.item (split ary indices) 0).
Proof. unfold split. destruct indices; eexists; reflexivity. Qed.

(** The DOF indices are within every assembled residual. *)
Definition dofs_in_range : Prop :=
  forall s fs,
    is_Some (take_dofs (assemble_vector s fs (dV region)) dof0) /\
    is_Some (take_dofs (assemble_vector s fs (dV region)) dof1).

(** The loop returns: no index of it is out of range. *)
Lemma newton_loop_returns n : forall iteration st,
  dofs_in_range -> l_fields st <> [] -> is_Some (loop n iteration st).
Proof.
  unfold loop.
  induction n as [|n IH]; intros iteration st Hdofs Hfs; [eexists; reflexivity|].
  cbn [newton_loop].
  destruct (split_first (solve (partition (l_fields st) (l_r st) (l_K st)
                                   dof1 dof0) u0ext) unstack_) as [d0 Hd0].
  unfold correction. rewrite Hd0. cbn [mbind option_bind].
  destruct (any_isnan d0); [eexists; reflexivity|].
  match goal with
  | |- context [deformation_gradient ?fs'] =>
      destruct (deformation_gradient_some fs') as [F' HF'];
      [apply add_fields_nonempty, Hfs|]; rewrite HF'
  end.
  cbn [mbind option_bind]. unfold residual_norm.
  match goal with
  | |- context [take_dofs (assemble_vector ?s ?fs' _) dof0] =>
      destruct (Hdofs s fs') as [[r0 Hr0] [r1 Hr1]]; rewrite Hr0, Hr1
  end.
  cbn [mbind option_bind].
  destruct (PrimFloat.ltb _ tol); [eexists; reflexivity|].
  match goal with
  | |- context [newton_loop _ _ _ _ _ _ _ _ n (S iteration) ?s] =>
      destruct (IH (S iteration) s Hdofs) as [[[[s1 o1] p1] i1] E];
      [apply add_fields_nonempty, Hfs|]; rewrite E
  end.
  eexists. reflexivity.
Qed.

(** C7: a call with at least one field and DOF indices in range returns;
    its loop has entered at most [maxiter] iterations; and when none of the
    iterations met the tolerance, the record returned carries a converged
    flag that is false. *)
Theorem newtonrhapson_iteration_cap (fs : list Field) (maxiter : Z) :
  fs <> [] -> dofs_in_range ->
  exists res printed iterations,
    newtonrhapson region u0ext fun_f fun_A dof1 dof0 unstack_ tol fs maxiter
    = Some (res, printed, iterations) /\
    (Z.of_nat iterations <= Z.max 0 maxiter)%Z /\
    (Forall (fun e => PrimFloat.ltb (norm_r e) tol = false) printed ->
     converged res = false).
Proof.
  intros Hfs Hdofs. unfold newtonrhapson.
  destruct (deformation_gradient_some fs Hfs) as [F0 HF0].
  unfold initial. rewrite HF0. cbn [mbind option_bind].
  match goal with
  | |- context [newton_loop _ _ _ _ _ _ _ _ ?n 0%nat ?s] =>
      destruct (newton_loop_returns n 0%nat s Hdofs Hfs)
        as [[[[st o] printed] j] E];
      unfold loop in E; rewrite E
  end.
  cbn [mbind option_bind]. eexists _, printed, j. split; [reflexivity|].
  apply newton_loop_cap in E as [Hj Hc]. split; [lia|].
  intros Hall. specialize (Hc Hall). cbn. destruct o; congruence.
Qed.

(** C2, amended: when, after [k] iterations that left the loop running, the
    part of the correction that belongs to the first field contains a
    not-a-number value, the corrector leaves the loop in iteration [k + 1],
    prints nothing more, and returns the fields as they were before that
    correction, with a converged flag that is false. *)
Theorem newtonrhapson_nan_break (fs : list Field) (maxiter : Z) (k : nat)
  (st0 stk : Locals) printed (j : nat) (dfields_0 : list float) :
  initial region fun_f fun_A fs = Some st0 ->
  loop k 0 st0 = Some (stk, MaxIterExceeded, printed, j) ->
  (k < Z.to_nat maxiter)%nat ->
  Py.item (correction u0ext dof1 dof0 unstack_ stk) 0 = Some dfields_0 ->
  any_isnan dfields_0 = true ->
  exists res,
    newtonrhapson region u0ext fun_f fun_A dof1 dof0 unstack_ tol fs maxiter
    = Some (res, printed, S k) /\
    fields res = l_fields stk /\ converged res = false.
Proof.
  intros Hinit Hk Hlt Hd0 Hnan. unfold newtonrhapson. rewrite Hinit.
  cbn [mbind option_bind].
  replace (Z.to_nat maxiter) with (k + S (Z.to_nat maxiter - S k))%nat by lia.
  destruct (newton_loop_app k (S (Z.to_nat maxiter - S k)) _ _ _ _ _ Hk)
    as [-> Happ].
  unfold loop in Happ. rewrite Happ. cbn [newton_loop Nat.add].
  rewrite Hd0. cbn [mbind option_bind]. rewrite Hnan.
  cbn [mbind option_bind fst snd]. rewrite app_nil_r.
  eexists. split; [reflexivity|]. split; reflexivity.
Qed.

End CorrectorFacts.

(** *** Facts about the driver *)

Section DriverFacts.

Context `{Co : Collaborators}.

Variables (region : Region).
Variables (f_ : Tensor -> list Interpolated -> Stress).
Variables (A_ : Tensor -> list Interpolated -> Elasticity).
Variables (boundary : string) (maxiter : Z) (tol : float).




End DriverFacts.

(** *** Further facts about the corrector *)

Lemma split_from_concat {X : Type} (ary : list X) indices : forall start,
  Sorted le (start :: indices) ->
  concat (split_from ary start indices) = skipn start ary.
Proof.
  induction indices as [|i indices IH]; intros start Hs.
  - cbn. apply app_nil_r.
  - cbn [split_from concat]. inversion Hs as [|? ? Hs' Hhd]; subst.
    inversion Hhd; subst. rewrite (IH i Hs'). unfold Py.slice.
    replace i with ((i - start) + start)%nat at 2 by lia.
    rewrite <- skipn_skipn. apply firstn_skipn.
Qed.

Lemma split_from_length {X : Type} (ary : list X) indices : forall start,
  length (split_from ary start indices) = S (length indices).
Proof.
  induction indices as [|i indices IH]; intros start; [reflexivity|].
  cbn [split_from length]. rewrite IH. reflexivity.
Qed.

Lemma item_zip_with {X Y Z : Type} (g : X -> Y -> Z) a : forall b i x y,
  Py.item a i = Some x -> Py.item b i = Some y ->
  Py.item (Py.zip_with g a b) i = Some (g x y).
Proof.
  unfold Py.item.
  induction a as [|x0 a IH]; intros [|y0 b] [|i] x y Ha Hb;
    try discriminate; cbn in *.
  - congruence.
  - apply IH; assumption.
Qed.

Section Parts.

Context `{Co : Collaborators}.

Variables (u0ext : list float) (dof1 dof0 unstack_ : list nat).

(** X8: with split points in ascending order the parts of the correction
    are the solved vector cut in pieces: put end to end they give it back,
    and there is one part more than there are split points. *)
Theorem correction_round_trip (st : Locals) :
  Sorted le unstack_ ->
  concat (correction u0ext dof1 dof0 unstack_ st)
  = solve (partition (l_fields st) (l_r st) (l_K st) dof1 dof0) u0ext /\
  length (correction u0ext dof1 dof0 unstack_ st) = S (length unstack_).
Proof.
  intros Hs. unfold correction, split. split.
  - rewrite split_from_concat; [apply skipn_O|].
    constructor; [exact Hs|].
    destruct unstack_; constructor. lia.
  - apply split_from_length.
Qed.

End Parts.

Section CorrectorMore.

Context `{Co : Collaborators}.

Variables (region : Region) (u0ext : list float).
Variables (fun_f : Tensor -> list Interpolated -> Stress).
Variables (fun_A : Tensor -> list Interpolated -> Elasticity).
Variables (dof1 dof0 unstack_ : list nat) (tol : float).

Let loop := newton_loop region u0ext fun_f fun_A dof1 dof0 unstack_ tol.
Let run := newtonrhapson region u0ext fun_f fun_A dof1 dof0 unstack_ tol.

(** X9: the corrections are added field by field; a field without a part
    of the correction stays as it is, and a part without a field is
    dropped. *)
Theorem add_fields_zip (fs : list Field) : forall dfields,
  length (add_fields fs dfields) = length fs /\
  forall i field,
    Py.item fs i = Some field ->
    Py.item (add_fields fs dfields) i
    = Some (match Py.item dfields i with
            | Some dfield => field_add field dfield
            | None => field
            end).
Proof.
  unfold Py.item.
  induction fs as [|f0 fs IH]; intros [|d0 dfields]; cbn [add_fields length].
  - split; [reflexivity|]. intros [|i] field H; discriminate.
  - split; [reflexivity|]. intros [|i] field H; discriminate.
  - split; [reflexivity|]. intros i field H. rewrite H.
    destruct i; reflexivity.
  - destruct (IH dfields) as [Hl Hi]. split; [rewrite Hl; reflexivity|].
    intros [|i] field H; cbn in *.
    + congruence.
    + apply Hi. exact H.
Qed.

(** The records of [r], [F] and [f] belong to the fields. *)
Definition consistent (st : Locals) : Prop :=
  deformation_gradient (l_fields st) = Some (l_F st) /\
  l_f st = fun_f (l_F st) (map interpolate (skipn 1 (l_fields st))) /\
  l_r st = assemble_vector (l_f st) (l_fields st) (dV region).

(** The tangent belongs to the fields. *)
Definition tangent_consistent (st : Locals) : Prop :=
  l_A st = fun_A (l_F st) (map interpolate (skipn 1 (l_fields st))) /\
  l_K st = assemble_matrix (l_A st) (l_fields st) (dV region).

Lemma initial_consistent fs st0 :
  initial region fun_f fun_A fs = Some st0 ->
  l_fields st0 = fs /\ consistent st0 /\ tangent_consistent st0.
Proof.
  unfold initial. intros H.
  destruct (deformation_gradient fs) as [F0|] eqn:E; [|discriminate].
  cbn [mbind option_bind] in H. injection H as <-.
  unfold consistent, tangent_consistent. cbn. repeat split. exact E.
Qed.

(** What a run of the loop keeps, prints and counts. *)
Lemma newton_loop_facts n : forall iteration st st' outcome printed j,
  loop n iteration st = Some (st', outcome, printed, j) ->
  consistent st -> tangent_consistent st ->
  consistent st' /\
  map info_iteration printed = seq (S iteration) (length printed) /\
  match outcome with
  | Converged =>
      exists k stk init e,
        loop k iteration st = Some (stk, MaxIterExceeded, init, iteration + k)%nat /\
        tangent_consistent stk /\
        printed = init ++ [e] /\
        Forall (fun e => PrimFloat.ltb (norm_r e) tol = false) init /\
        PrimFloat.ltb (norm_r e) tol = true /\
        j = (iteration + length printed)%nat /\ length init = k /\
        l_fields st'
        = add_fields (l_fields stk) (correction u0ext dof1 dof0 unstack_ stk) /\
        l_K st' = l_K stk /\ l_A st' = l_A stk
  | Diverged =>
      Forall (fun e => PrimFloat.ltb (norm_r e) tol = false) printed /\
      j = S (iteration + length printed)
  | MaxIterExceeded =>
      Forall (fun e => PrimFloat.ltb (norm_r e) tol = false) printed /\
      j = (iteration + length printed)%nat /\ length printed = n /\
      tangent_consistent st'
  end.
Proof.
  unfold loop.
  induction n as [|n IH]; intros iteration st st' outcome printed j H Hc Ht.
  - injection H as <- <- <- <-. cbn.
    repeat split; try assumption; try apply Hc; try apply Ht;
      try constructor; lia.
  - cbn [newton_loop] in H.
    destruct (Py.item _ 0) as [d0|] eqn:Ed0; [|discriminate].
    cbn [mbind option_bind] in H.
    destruct (any_isnan d0) eqn:Enan.
    { injection H as <- <- <- <-. cbn.
      repeat split; try apply Hc; try constructor; lia. }
    destruct (deformation_gradient _) as [F'|] eqn:EF; [|discriminate].
    cbn [mbind option_bind] in H.
    destruct (residual_norm _ _ _) as [nr|] eqn:Enr; [|discriminate].
    cbn [mbind option_bind] in H.
    destruct (PrimFloat.ltb nr tol) eqn:Etol.
    { injection H as <- <- <- <-.
      split; [repeat split; cbn; try reflexivity; exact EF|].
      split; [cbn; f_equal; lia|].
      exists 0%nat, st, []. eexists.
      cbn [newton_loop app length]. rewrite Nat.add_0_r.
      split; [reflexivity|]. split; [exact Ht|]. split; [reflexivity|].
      split; [constructor|]. split; [exact Etol|]. split; [lia|].
      split; [reflexivity|]. repeat split. }
    match type of H with
    | context [newton_loop _ _ _ _ _ _ _ _ n (S iteration) ?s] =>
        destruct (newton_loop region u0ext fun_f fun_A dof1 dof0 unstack_
                    tol n (S iteration) s)
          as [[[[s1 o1] p1] i1]|] eqn:E; [|discriminate];
        cbn [mbind option_bind] in H;
        injection H as Hs Ho Hp Hi; subst s1 o1 printed i1;
        destruct (IH _ _ _ _ _ _ E) as (Hc' & Hseq & Hout);
        [repeat split; cbn; try reflexivity; exact EF
        |repeat split; cbn; reflexivity|]
    end.
    split; [exact Hc'|].
    split.
    { cbn [map length seq info_iteration]. rewrite Hseq.
      f_equal. lia. }
    destruct outcome.
    + destruct Hout as [Hall ->]. split; [|cbn; lia].
      constructor; [exact Etol | exact Hall].
    + destruct Hout as (k & stk & init & e & Hk & Htk & -> & Hall & He & -> &
                        Hlen & Hf & HK & HA).
      eexists (S k), stk, (_ :: init), e.
      split.
      { cbn [newton_loop]. rewrite Ed0. cbn [mbind option_bind].
        rewrite Enan, EF. cbn [mbind option_bind]. rewrite Enr.
        cbn [mbind option_bind]. rewrite Etol, Hk.
        cbn [mbind option_bind].
        replace (iteration + S k)%nat with (S iteration + k)%nat by lia.
        reflexivity. }
      split; [exact Htk|].
      split; [reflexivity|].
      split; [constructor; [exact Etol | exact Hall]|].
      split; [exact He|].
      split; [cbn [length app]; lia|].
      split; [cbn; lia|].
      split; [exact Hf|]. split; [exact HK | exact HA].
    + destruct Hout as (Hall & -> & Hlen & Htk).
      split; [constructor; [exact Etol | exact Hall]|].
      split; [cbn; lia|]. split; [cbn; lia | exact Htk].
Qed.

(** X10: in every record returned, the deformation gradient, the stress
    and the residual are those of the fields of the record. *)
Theorem newtonrhapson_record_consistent fs maxiter res printed iterations :
  run fs maxiter = Some (res, printed, iterations) ->
  deformation_gradient (fields res) = Some (F res) /\
  f res = fun_f (F res) (map interpolate (skipn 1 (fields res))) /\
  r res = assemble_vector (f res) (fields res) (dV region).
Proof.
  unfold run, newtonrhapson. intros H.
  destruct (initial _ _ _ fs) as [st0|] eqn:E0; [|discriminate].
  cbn [mbind option_bind] in H.
  destruct (newton_loop _ _ _ _ _ _ _ _ _ _ _)
    as [[[[st o] p] i]|] eqn:E; [|discriminate].
  cbn [mbind option_bind] in H. injection H as <- <- <-.
  apply initial_consistent in E0 as (_ & Hc & Ht).
  destruct (newton_loop_facts _ _ _ _ _ _ _ E Hc Ht) as (Hc' & _).
  exact Hc'.
Qed.

(** X11: the lines printed are numbered from 1; the converged flag is true
    exactly when the last line printed has a norm below the tolerance, and
    no line before the last has one; the loop has entered as many
    iterations as lines were printed, or one more when it was left for a
    not-a-number correction. *)
Theorem newtonrhapson_printed fs maxiter res printed iterations :
  run fs maxiter = Some (res, printed, iterations) ->
  map info_iteration printed = seq 1 (length printed) /\
  (converged res = true ->
   exists init e,
     printed = init ++ [e] /\
     Forall (fun e => PrimFloat.ltb (norm_r e) tol = false) init /\
     PrimFloat.ltb (norm_r e) tol = true /\
     iterations = length printed) /\
  (converged res = false ->
   Forall (fun e => PrimFloat.ltb (norm_r e) tol = false) printed /\
   (iterations = length printed \/ iterations = S (length printed))).
Proof.
  unfold run, newtonrhapson. intros H.
  destruct (initial _ _ _ fs) as [st0|] eqn:E0; [|discriminate].
  cbn [mbind option_bind] in H.
  destruct (newton_loop _ _ _ _ _ _ _ _ _ _ _)
    as [[[[st o] p] i]|] eqn:E; [|discriminate].
  cbn [mbind option_bind] in H. injection H as <- <- <-.
  apply initial_consistent in E0 as (_ & Hc & Ht).
  destruct (newton_loop_facts _ _ _ _ _ _ _ E Hc Ht) as (_ & Hseq & Hout).
  split; [exact Hseq|]. cbn [converged result].
  destruct o.
  - destruct Hout as [Hall ->]. split; [discriminate|].
    intros _. split; [exact Hall | right; reflexivity].
  - destruct Hout as (k & stk & init & e & _ & _ & -> & Hall & He & -> & _).
    split; [|discriminate]. intros _. exists init, e.
    repeat split; assumption || reflexivity.
  - destruct Hout as (Hall & -> & _). split; [discriminate|].
    intros _. split; [exact Hall | left; reflexivity].
Qed.

(** X12: in a converged record the fields are those before the last
    correction with that correction added, whereas the elasticity and the
    tangent are still those of the fields before it. *)
Theorem newtonrhapson_converged_tangent fs maxiter res printed iterations :
  run fs maxiter = Some (res, printed, iterations) ->
  converged res = true ->
  exists st0 k stk init,
    initial region fun_f fun_A fs = Some st0 /\
    loop k 0 st0 = Some (stk, MaxIterExceeded, init, k) /\
    iterations = S k /\
    fields res
    = add_fields (l_fields stk) (correction u0ext dof1 dof0 unstack_ stk) /\
    A res = fun_A (l_F stk) (map interpolate (skipn 1 (l_fields stk))) /\
    K res = assemble_matrix (A res) (l_fields stk) (dV region).
Proof.
  unfold run, newtonrhapson. intros H Hconv.
  destruct (initial _ _ _ fs) as [st0|] eqn:E0; [|discriminate].
  cbn [mbind option_bind] in H.
  destruct (newton_loop _ _ _ _ _ _ _ _ _ _ _)
    as [[[[st o] p] i]|] eqn:E; [|discriminate].
  cbn [mbind option_bind] in H. injection H as <- <- <-.
  destruct (initial_consistent _ _ E0) as (_ & Hc & Ht).
  destruct (newton_loop_facts _ _ _ _ _ _ _ E Hc Ht) as (_ & _ & Hout).
  cbn [converged result] in Hconv.
  destruct o; try discriminate.
  destruct Hout as (k & stk & init & e & Hk & [HA HK] & -> & _ & _ & -> &
                    Hlen & Hf & HK' & HA').
  exists st0, k, stk, init. cbn [fields A K result].
  split; [reflexivity|]. split; [exact Hk|].
  split; [rewrite length_app; cbn; lia|].
  split; [exact Hf|].
  split; [rewrite HA'; exact HA|].
  rewrite HK', HA'. exact HK.
Qed.

(** X13: with a cap of zero or less no correction is made: the record
    holds the fields as given and a converged flag that is false, whatever
    the residual is. *)
Theorem newtonrhapson_no_iteration fs maxiter res printed iterations :
  (maxiter <= 0)%Z ->
  run fs maxiter = Some (res, printed, iterations) ->
  fields res = fs /\ converged res = false /\ printed = [] /\
  iterations = 0%nat.
Proof.
  unfold run, newtonrhapson. intros Hm H.
  destruct (initial _ _ _ fs) as [st0|] eqn:E0; [|discriminate].
  cbn [mbind option_bind] in H.
  replace (Z.to_nat maxiter) with 0%nat in H by lia.
  cbn [newton_loop mbind option_bind] in H. injection H as <- <- <-.
  apply initial_consistent in E0 as (Hfs & _).
  repeat split. exact Hfs.
Qed.

End CorrectorMore.

(** *** Further facts about the driver *)



Section DriverMore.

Context `{Co : Collaborators}.

Variables (region : Region).
Variables (f_ : Tensor -> list Interpolated -> Stress).
Variables (A_ : Tensor -> list Interpolated -> Elasticity).
Variables (boundary : string) (maxiter : Z) (tol : float).



(** X15: without an increment nothing is solved and an empty history is
    written; with one, a boundary name which is not a key of [bounds], or
    an empty list of fields, makes the driver raise. *)
Theorem incsolve_edges (fs : list Field) (bounds : gmap string Boundary) :
  incsolve fs region f_ A_ bounds [] boundary maxiter tol
  = Some ([], [SavedHistory []]) /\
  forall move_t move,
    bounds !! boundary = None \/ fs = [] ->
    incsolve fs region f_ A_ bounds (move_t :: move) boundary maxiter tol
    = None.
Proof.
  unfold incsolve.
  destruct (dofpartition fs bounds) as [[dof0 dof1] unstack_].
  split; [reflexivity|].
  intros move_t move [Hkey | ->]; cbn [incsolve_loop].
  - rewrite Hkey. reflexivity.
  - destruct (bounds !! boundary); reflexivity.
Qed.

End DriverMore.

(** *** [dofresiduals] *)

(** A numpy array of two axes, by rows, and the array objects a call can
    reach, by their identity: the parameters [r] and [rref] of
    [dofresiduals] are references to such objects. *)
Abbreviation ndarray := (list (list float)).
Abbreviation heap := (gmap positive ndarray).

Record Mesh := { elements_per_node : list Z }.
Record MeshRegion := { mesh : Mesh }.

(** The value stored by [a[a == 0] = np.nan]. *)
Definition nan_if_zero (x : float) : float :=
  if PrimFloat.eqb x PrimFloat.zero then PrimFloat.nan else x.

Definition nan_where_zero (a : ndarray) : ndarray := map (map nan_if_zero) a.

(** [a / b] for two arrays of one shape; [None] stands for the other
    shapes, on which numpy broadcasts or raises. *)
Definition divide (a b : ndarray) : option ndarray :=
  if bool_decide (map length a = map length b)
  then Some (Py.zip_with (Py.zip_with PrimFloat.div) a b)
  else None.

(** [dst[mask] = src[mask]] for a boolean [mask] over the rows, on a copy;
    [None] stands for the [IndexError] of a mask of another length. *)
Definition assign_where (mask : list bool) (dst src : ndarray)
  : option ndarray :=
  if bool_decide (length mask = length dst /\ length mask = length src)
  then Some (Py.zip_with (fun (m : bool) rows => if m then rows.2 else rows.1)
               mask (Py.zip_with pair dst src))
  else None.

(** [dofresiduals(region, r, rref, dof1)], lines 47-59: the heap after the
    call, and the array returned. *)
Definition dofresiduals (h : heap) (region : MeshRegion) (r rref : positive)
  (dof1 : option (list nat)) : heap * option (ndarray + list float) :=
  let rx := r in
  let ry := rref in
  match h !! ry with
  | None => (h, None)
  | Some a =>
      (* ry[ry == 0] = np.nan *)
      let h := <[ry := nan_where_zero a]> h in
      (h,
       x ← h !! rx;
       y ← h !! ry;
       rxy ← divide x y;
       let single :=
         map (fun e => Z.eqb e 1) (elements_per_node (mesh region)) in
       rxy ← assign_where single rxy x;
       match dof1 with
       | None => Some (inl rxy)
       | Some dof1 => inr <$> take_dofs (concat rxy) dof1
       end)
  end.

Lemma nan_where_zero_item (a : ndarray) i j row x :
  Py.item a i = Some row -> Py.item row j = Some x ->
  exists row',
    Py.item (nan_where_zero a) i = Some row' /\
    Py.item row' j = Some (nan_if_zero x).
Proof.
  unfold Py.item, nan_where_zero. intros Hrow Hx.
  exists (map nan_if_zero row). split.
  - apply map_nth_error. exact Hrow.
  - apply map_nth_error. exact Hx.
Qed.

(** C10: after a call the array object [rref] of the caller holds, at
    every entry that was zero, a not-a-number value, and its other entries
    as they were; the ratio is taken over this overwritten array. *)
Theorem dofresiduals_overwrites_rref (h : heap) (region : MeshRegion)
  (r rref : positive) (dof1 : option (list nat)) (a : ndarray) :
  h !! rref = Some a ->
  let out := dofresiduals h region r rref dof1 in
  out.1 = <[rref := nan_where_zero a]> h /\
  out.1 !! rref = Some (nan_where_zero a) /\
  (forall i j row x,
     Py.item a i = Some row -> Py.item row j = Some x ->
     exists row',
       Py.item (nan_where_zero a) i = Some row' /\
       Py.item row' j
       = Some (if PrimFloat.eqb x PrimFloat.zero then PrimFloat.nan else x)) /\
  (forall res,
     out.2 = Some res ->
     exists x rxy,
       out.1 !! r = Some x /\ divide x (nan_where_zero a) = Some rxy).
Proof.
  intros Ha. unfold dofresiduals. rewrite Ha. cbn [fst snd].
  split; [reflexivity|].
  split; [apply lookup_insert_eq|].
  split; [intros i j row x; apply nan_where_zero_item|].
  intros res. rewrite lookup_insert_eq.
  destruct (<[rref:=nan_where_zero a]> h !! r) as [x|]; [|discriminate].
  cbn [mbind option_bind].
  destruct (divide x (nan_where_zero a)) as [rxy|] eqn:Ediv; [|discriminate].
  intros _. exists x, rxy. split; [reflexivity | exact Ediv].
Qed.

(** *** Further facts about [dofresiduals] *)

Lemma nan_if_zero_not_zero (x : float) :
  PrimFloat.eqb (nan_if_zero x) PrimFloat.zero = false.
Proof.
  unfold nan_if_zero.
  destruct (PrimFloat.eqb x PrimFloat.zero) eqn:E; [reflexivity | exact E].
Qed.

Lemma nan_if_zero_idempotent (x : float) :
  nan_if_zero (nan_if_zero x) = nan_if_zero x.
Proof.
  unfold nan_if_zero.
  destruct (PrimFloat.eqb x PrimFloat.zero) eqn:E; [reflexivity|].
  rewrite E. reflexivity.
Qed.

Lemma nan_where_zero_idempotent (a : ndarray) :
  nan_where_zero (nan_where_zero a) = nan_where_zero a.
Proof.
  unfold nan_where_zero. rewrite map_map. apply map_ext. intros row.
  rewrite map_map. apply map_ext. intros x. apply nan_if_zero_idempotent.
Qed.

Lemma nan_where_zero_no_zero (a : ndarray) :
  Forall (Forall (fun x => PrimFloat.eqb x PrimFloat.zero = false))
         (nan_where_zero a).
Proof.
  unfold nan_where_zero.
  induction a as [|row a IH]; cbn [map]; constructor; [|exact IH].
  induction row as [|x row IHrow]; cbn [map]; constructor;
    [apply nan_if_zero_not_zero | exact IHrow].
Qed.

Lemma nan_where_zero_shape (a : ndarray) :
  map length (nan_where_zero a) = map length a.
Proof.
  unfold nan_where_zero. rewrite map_map. apply map_ext. intros row.
  apply length_map.
Qed.

(** X16: the call changes the array object [rref] and no other: every
    other array of the caller, [r] among them unless it is [rref] itself,
    is as it was, and none is added or removed. *)
Theorem dofresiduals_frame (h : heap) (region : MeshRegion)
  (r rref : positive) (dof1 : option (list nat)) (a : ndarray) :
  h !! rref = Some a ->
  let out := dofresiduals h region r rref dof1 in
  (forall l, l <> rref -> out.1 !! l = h !! l) /\
  (forall l, is_Some (out.1 !! l) <-> is_Some (h !! l)).
Proof.
  intros Ha. unfold dofresiduals. rewrite Ha. cbn [fst].
  split.
  - intros l Hl. apply lookup_insert_ne. congruence.
  - intros l. destruct (decide (l = rref)) as [->|Hl].
    + rewrite lookup_insert_eq, Ha. split; intros _; eexists; reflexivity.
    + rewrite lookup_insert_ne by congruence. reflexivity.
Qed.

(** X17: after the call [rref] has its shape and no entry that compares
    equal to zero, and a further call, whatever its other arguments are,
    leaves all arrays as the first call left them. *)
Theorem dofresiduals_no_zero_left (h : heap) (region region' : MeshRegion)
  (r r' rref : positive) (dof1 dof1' : option (list nat)) (a : ndarray) :
  h !! rref = Some a ->
  let h1 := (dofresiduals h region r rref dof1).1 in
  (exists a1,
     h1 !! rref = Some a1 /\ map length a1 = map length a /\
     Forall (Forall (fun x => PrimFloat.eqb x PrimFloat.zero = false)) a1) /\
  (dofresiduals h1 region' r' rref dof1').1 = h1.
Proof.
  intros Ha. unfold dofresiduals. rewrite Ha. cbn [fst]. split.
  - exists (nan_where_zero a). rewrite lookup_insert_eq.
    split; [reflexivity|].
    split; [apply nan_where_zero_shape | apply nan_where_zero_no_zero].
  - rewrite lookup_insert_eq. cbn [fst].
    rewrite nan_where_zero_idempotent. apply insert_insert_eq.
Qed.

(** X18: called without [dof1], the array returned has a row for every row
    of [r]: the row of [r] itself at a node that belongs to one element,
    and the ratio of the rows of [r] and of the overwritten [rref] at
    every other node. *)
Theorem dofresiduals_rows (h : heap) (region : MeshRegion)
  (r rref : positive) (a : ndarray) res :
  h !! rref = Some a ->
  (dofresiduals h region r rref None).2 = Some res ->
  exists x rxy,
    res = inl rxy /\
    (dofresiduals h region r rref None).1 !! r = Some x /\
    length rxy = length x /\
    forall i e xi yi,
      Py.item (elements_per_node (mesh region)) i = Some e ->
      Py.item x i = Some xi ->
      Py.item (nan_where_zero a) i = Some yi ->
      Py.item rxy i
      = Some (if Z.eqb e 1 then xi else Py.zip_with PrimFloat.div xi yi).
Proof.
  intros Ha. unfold dofresiduals. rewrite Ha. cbn [fst snd].
  rewrite lookup_insert_eq.
  destruct (<[rref:=nan_where_zero a]> h !! r) as [x|]; [|discriminate].
  cbn [mbind option_bind]. unfold divide.
  destruct (bool_decide (map length x = _)) eqn:Eshape; [|discriminate].
  cbn [mbind option_bind]. unfold assign_where.
  destruct (bool_decide (_ /\ _)) eqn:Emask; [|discriminate].
  cbn [mbind option_bind]. intros Hres. injection Hres as Hres.
  subst res.
  apply bool_decide_eq_true in Eshape, Emask.
  destruct Emask as [Hm1 Hm2].
  assert (Hxy : length x = length (nan_where_zero a)).
  { rewrite <- (length_map length x), Eshape. apply length_map. }
  eexists x, _. split; [reflexivity|]. split; [reflexivity|].
  split.
  - rewrite !Morph.zip_with_length in *. lia.
  - intros i e xi yi He Hxi Hyi.
    rewrite (item_zip_with _ _ _ i (Z.eqb e 1)
               (Py.zip_with PrimFloat.div xi yi, xi)).
    + reflexivity.
    + unfold Py.item in *.
      apply (map_nth_error (fun e => Z.eqb e 1)). exact He.
    + apply item_zip_with; [|exact Hxi].
      apply item_zip_with; assumption.
Qed.

(** *** [curve] *)

Section Curve.

(** [scipy.interpolate.interp1d] and [numpy.linspace]; [None] stands for
    what [interp1d] raises. *)
Variable interp1d :
  list float -> list float -> string -> option (list float -> list float).
Variable linspace : float -> float -> list float.

(** Lines 342-347: the local variable [kind] after the three tests on
    [len(y)]; [None] stands for a variable that is not bound. *)
Definition curve_kind (len_y : nat) : option string :=
  let kind := None in
  let kind := if (1 <? len_y)%nat then Some "linear"%string else kind in
  let kind := if (2 <? len_y)%nat then Some "quadratic"%string else kind in
  let kind := if (3 <? len_y)%nat then Some "cubic"%string else kind in
  kind.

(** [curve(x, y)], lines 342-351; [None] stands for the
    [UnboundLocalError] of [kind], for what [interp1d] raises and for an
    [IndexError]. *)
Definition curve (x y : list float)
  : option ((list float * list float) * (list float * list float)) :=
  kind ← curve_kind (length y);
  f ← interp1d (firstn (length y) x) y kind;
  x_0 ← Py.item x 0;
  x_last ← Py.item_last (firstn (length y) x);
  let xx := linspace x_0 x_last in
  Some ((firstn (length y) x, y), (xx, f xx)).

(** X19: with fewer than two values of [y] the call raises; otherwise the
    interpolation is linear on two values, quadratic on three and cubic on
    four or more, over [x] cut to the length of [y], and the data returned
    are that cut [x] and [y]. *)
Theorem curve_kinds (x y : list float) :
  ((length y < 2)%nat -> curve x y = None) /\
  forall data fit,
    curve x y = Some (data, fit) ->
    (2 <= length y)%nat /\ x <> [] /\
    data = (firstn (length y) x, y) /\
    exists f_,
      interp1d (firstn (length y) x) y
        (if (length y =? 2)%nat then "linear"
         else if (length y =? 3)%nat then "quadratic" else "cubic")%string
      = Some f_ /\
      fit.2 = f_ fit.1.
Proof.
  unfold curve, curve_kind. split.
  - intros Hy.
    destruct (length y) as [|[|n]]; [reflexivity | reflexivity | lia].
  - intros data fit H.
    destruct (length y) as [|[|[|[|n]]]] eqn:Ely; cbn in H; try discriminate.
    all: destruct (interp1d _ y _) as [f_|] eqn:Ef; [|discriminate].
    all: cbn [mbind option_bind] in H.
    all: destruct (Py.item x 0) as [x_0|] eqn:E0; [|discriminate].
    all: cbn [mbind option_bind] in H.
    all: destruct (Py.item_last _) as [x_last|]; [|discriminate].
    all: cbn [mbind option_bind] in H; injection H as <- <-.
    all: split; [lia|]; split; [intros ->; discriminate|].
    all: split; [reflexivity|]; exists f_; cbn [Nat.eqb];
      split; [first [exact Ef | reflexivity] | reflexivity].
Qed.

End Curve.

(** *** The tensor components of [tonodes] *)

(** Lines 188-208 of [tonodes], mode ["tensor"]: the list [ij] of the
    components that are shifted to the nodes; [None] stands for a variable
    [ij] that is not bound when [len(ij)] is taken. *)
Definition tonodes_ij (sym : bool) (ndim : nat) : option (list (nat * nat)) :=
  if sym then
    if (ndim =? 3)%nat then
      Some [(0, 0); (1, 1); (2, 2); (0, 1); (1, 2); (0, 2)]%nat
    else if (ndim =? 2)%nat then
      Some [(0, 0); (1, 1); (0, 1)]%nat
    else None
  else
    if (ndim =? 3)%nat then
      Some [(0, 0); (0, 1); (0, 2); (1, 0); (1, 1); (1, 2); (2, 0); (2, 1);
            (2, 2)]%nat
    else if (ndim =? 2)%nat then
      Some [(0, 0); (0, 1); (1, 0); (1, 1)]%nat
    else None.

(** X20: the list is bound in two and three dimensions only; it has no
    component twice; with [sym] it holds the components of the upper
    triangle, each once, and without [sym] all components, row by row. *)
Theorem tonodes_ij_complete (sym : bool) (ndim : nat) ij :
  tonodes_ij sym ndim = Some ij ->
  (ndim = 2 \/ ndim = 3)%nat /\
  List.NoDup ij /\
  (forall i j, In (i, j) ij -> (i < ndim /\ j < ndim)%nat) /\
  if sym then
    length ij = (ndim * (ndim + 1) / 2)%nat /\
    forall i j, (i <= j < ndim)%nat <-> In (i, j) ij
  else
    forall i j, (i < ndim)%nat -> (j < ndim)%nat ->
                nth_error ij (i * ndim + j) = Some (i, j).
Proof.
  unfold tonodes_ij.
  destruct sym, ndim as [|[|[|[|n]]]]; cbn; try discriminate;
    intros [= <-].
  all: split; [lia|].
  all: split;
    [repeat (apply List.NoDup_cons; [cbn; intuition congruence|]);
     apply List.NoDup_nil|].
  all: split;
    [cbn; intros i j H;
     repeat (destruct H as [H|H]; [inversion H; lia|]); destruct H|].
  - split; [reflexivity|]. intros i j. cbn. split.
    + intros Hij.
      destruct i as [|[|i]], j as [|[|j]]; try lia; intuition.
    + intros H.
      repeat (destruct H as [H|H]; [inversion H; lia|]); destruct H.
  - split; [reflexivity|]. intros i j. cbn. split.
    + intros Hij.
      destruct i as [|[|[|i]]], j as [|[|[|j]]]; try lia; intuition.
    + intros H.
      repeat (destruct H as [H|H]; [inversion H; lia|]); destruct H.
  - intros i j Hi Hj.
    destruct i as [|[|i]], j as [|[|j]]; try lia; reflexivity.
  - intros i j Hi Hj.
    destruct i as [|[|[|i]]], j as [|[|[|j]]]; try lia; reflexivity.
Qed.

Lemma tonodes_ij_complete_run :
  exists ij,
    tonodes_ij true 3 = Some ij /\ length ij = 6%nat /\ List.NoDup ij /\
    In (1, 2)%nat ij.
Proof.
  eexists. split; [reflexivity|].
  destruct (tonodes_ij_complete true 3 _ eq_refl) as (_ & Hnd & _ & Hlen & Hin).
  split; [exact Hlen|]. split; [exact Hnd|].
  apply (Hin 1%nat 2%nat). lia.
Defined.

(** *** A two-DOF instance of the collaborators

    Fields, tensors and stresses are arrays of floats; the residual is the
    stress on two DOFs, the first prescribed and the second free; the
    linear solve returns the prescribed vector as the correction; a
    boundary is its value. *)

Import PrimFloat.
Local Open Scope float_scope.
Set Warnings "-inexact-float".

Definition norm2 (v : list float) : float :=
  PrimFloat.sqrt (fold_left (fun a x => a + x * x) v 0).

Definition two_dofs : Collaborators := {|
  Region := unit;
  Field := list float;
  Tensor := list float;
  Interpolated := list float;
  Stress := list float;
  Elasticity := unit;
  Weights := unit;
  Matrix := unit;
  System := list float;
  Boundary := float;
  dV := fun _ => tt;
  grad := fun u => u;
  identity := map (fun _ => 1);
  tensor_add := Py.zip_with PrimFloat.add;
  interpolate := fun u => u;
  assemble_vector := fun s _ _ => firstn 2 (s ++ [0; 0]);
  assemble_matrix := fun _ _ _ => tt;
  partition := fun _ r _ _ _ => r;
  solve := fun _ u0ext => u0ext;
  field_add := Py.zip_with PrimFloat.add;
  norm := norm2;
  norms := map norm2;
  dofpartition := fun _ _ => ([0%nat], [1%nat], []);
  apply := fun _ bounds _ =>
    match bounds !! "move"%string with Some v => [v; 0] | None => [] end;
  set_value := fun _ v => v
|}.

Lemma two_dofs_in_range :
  dofs_in_range (Co := two_dofs) tt [1%nat] [0%nat].
Proof.
  intros s fs. cbn.
  destruct s as [|a [|b s]]; cbn; split; eexists; reflexivity.
Qed.

(** C5, an instance: no residual on the prescribed DOF. *)
Lemma residual_norm_reference_run :
  residual_norm (Co := two_dofs) [1%nat] [0%nat] [0; 3] = Some 3 /\
  exists r0 r1,
    take_dofs [0; 3] [0%nat] = Some r0 /\
    take_dofs [0; 3] [1%nat] = Some r1 /\
    3 = PrimFloat.div (norm2 r1) (reference (norm2 r0)) /\
    (PrimFloat.eqb (norm2 r0) 0 = true -> reference (norm2 r0) = 1) /\
    PrimFloat.eqb (reference (norm2 r0)) 0 = false.
Proof.
  split; [reflexivity|].
  exact (residual_norm_reference (Co := two_dofs) [1%nat] [0%nat] [0; 3] 3
           eq_refl).
Defined.

(** C7, an instance: a residual that stays at 1 on both DOFs, and a cap of
    3 iterations. *)
Lemma newtonrhapson_iteration_cap_run :
  exists res printed iterations,
    newtonrhapson (Co := two_dofs) tt [0; 0] (fun _ _ => [1; 1])
      (fun _ _ => tt) [1%nat] [0%nat] [] 1e-6 [[0; 0]] 3
    = Some (res, printed, iterations) /\
    (Z.of_nat iterations <= Z.max 0 3)%Z /\
    (Forall (fun e => PrimFloat.ltb (norm_r e) 1e-6 = false) printed ->
     converged res = false).
Proof.
  apply (newtonrhapson_iteration_cap (Co := two_dofs)).
  - discriminate.
  - exact two_dofs_in_range.
Defined.

(** C2, an instance: the prescribed vector, and so the correction of the
    first of two fields, holds a not-a-number value at the first
    iteration. *)
Lemma newtonrhapson_nan_break_run :
  exists res,
    newtonrhapson (Co := two_dofs) tt [nan; 0] (fun F _ => F)
      (fun _ _ => tt) [1%nat] [0%nat] [1%nat] 1e-6 [[0]; [0]] 20
    = Some (res, [], 1%nat) /\
    fields res = [[0]; [0]] /\ converged res = false.
Proof.
  pose (st0 := @Build_Locals two_dofs [[0]; [0]] [1; 0] tt [1] [1] tt).
  apply (newtonrhapson_nan_break (Co := two_dofs) tt [nan; 0] (fun F _ => F)
           (fun _ _ => tt) [1%nat] [0%nat] [1%nat] 1e-6 [[0]; [0]] 20 0
           st0 st0 [] 0 [nan]).
  - reflexivity.
  - reflexivity.
  - cbn. lia.
  - reflexivity.
  - reflexivity.
Defined.

(** C2, the claim as stated fails: here the correction holds a not-a-number
    value in the part of the second field only; the corrector applies it,
    twice, and leaves the loop when the cap of 2 iterations is reached. *)
Lemma newtonrhapson_nan_in_second_field :
  let fs := [[0]; [0]] in
  let fun_f := fun (F : list float) (extra : list (list float)) =>
                 F ++ concat extra in
  exists st0 res printed,
    initial (Co := two_dofs) tt fun_f (fun _ _ => tt) fs = Some st0 /\
    correction (Co := two_dofs) [1; nan] [1%nat] [0%nat] [1%nat] st0
    = [[1]; [nan]] /\
    newtonrhapson (Co := two_dofs) tt [1; nan] fun_f (fun _ _ => tt)
      [1%nat] [0%nat] [1%nat] 1e-6 fs 2
    = Some (res, printed, 2%nat) /\
    fields res = [[2]; [nan]] /\ fields res <> fs.
Proof.
  intros fs fun_f. eexists _, _, _.
  split; [reflexivity|]. split; [reflexivity|]. split; [reflexivity|].
  split; [reflexivity | discriminate].
Qed.


(** C10, an instance: a residual of one node and a reference with a zero,
    a negative zero and a non-zero entry. *)
Lemma dofresiduals_overwrites_rref_run :
  let h : heap := {[ 1%positive := [[1; 2; 3]]; 2%positive := [[0; -0; 4]] ]} in
  let out := dofresiduals h {| mesh := {| elements_per_node := [2%Z] |} |}
               1 2 None in
  h !! 2%positive = Some [[0; -0; 4]] /\
  out.1 !! 2%positive = Some [[nan; nan; 4]] /\
  out.2 = Some (inl [[nan; nan; 0.75]]).
Proof.
  intros h out. split; [reflexivity|].
  destruct (dofresiduals_overwrites_rref h
              {| mesh := {| elements_per_node := [2%Z] |} |} 1 2 None
              [[0; -0; 4]] eq_refl) as (_ & Hrref & _).
  split; [exact Hrref | reflexivity].
Defined.

(** *** Instances of the further facts *)

Lemma correction_round_trip_run :
  let st := @Build_Locals two_dofs [[0]; [0; 0]] [1; 0] tt [1] [1] tt in
  Sorted le [1%nat] /\
  concat (correction (Co := two_dofs) [1; 2; 3] [1%nat] [0%nat] [1%nat] st)
  = [1; 2; 3] /\
  length (correction (Co := two_dofs) [1; 2; 3] [1%nat] [0%nat] [1%nat] st)
  = 2%nat.
Proof.
  intros st.
  assert (Hs : Sorted le [1%nat]) by (repeat constructor).
  split; [exact Hs|].
  exact (correction_round_trip (Co := two_dofs) [1; 2; 3] [1%nat] [0%nat]
           [1%nat] st Hs).
Defined.

Lemma add_fields_zip_run :
  Py.item (add_fields (Co := two_dofs) [[1]; [2]; [3]] [[10]; [20]]) 1
  = Some [22] /\
  Py.item (add_fields (Co := two_dofs) [[1]; [2]; [3]] [[10]; [20]]) 2
  = Some [3].
Proof.
  split.
  - exact (proj2 (add_fields_zip (Co := two_dofs) [[1]; [2]; [3]]
                    [[10]; [20]]) 1%nat [2] eq_refl).
  - exact (proj2 (add_fields_zip (Co := two_dofs) [[1]; [2]; [3]]
                    [[10]; [20]]) 2%nat [3] eq_refl).
Defined.

Lemma newtonrhapson_record_consistent_run :
  exists res printed iterations,
    newtonrhapson (Co := two_dofs) tt [0.5; 0] (fun F _ => F)
      (fun _ _ => tt) [1%nat] [0%nat] [] 1e-6 [[0; 0]] 3
    = Some (res, printed, iterations) /\
    r res = firstn 2 (f res ++ [0; 0]) /\ fields res = [[1.5; 0]].
Proof.
  destruct (newtonrhapson (Co := two_dofs) tt [0.5; 0] (fun F _ => F)
              (fun _ _ => tt) [1%nat] [0%nat] [] 1e-6 [[0; 0]] 3)
    as [[[res printed] iterations]|] eqn:E; [|vm_compute in E; discriminate].
  exists res, printed, iterations. split; [reflexivity|].
  destruct (newtonrhapson_record_consistent (Co := two_dofs) tt [0.5; 0]
              (fun F _ => F) (fun _ _ => tt) [1%nat] [0%nat] [] 1e-6
              [[0; 0]] 3 res printed iterations E) as (_ & _ & Hr).
  split; [exact Hr|].
  vm_compute in E. injection E as <- _ _. reflexivity.
Defined.

Lemma newtonrhapson_printed_run :
  exists res printed iterations,
    newtonrhapson (Co := two_dofs) tt [0.5; 0] (fun F _ => F)
      (fun _ _ => tt) [1%nat] [0%nat] [] 1e-6 [[0; 0]] 3
    = Some (res, printed, iterations) /\
    map info_iteration printed = seq 1 (length printed) /\
    converged res = false /\ iterations = 3%nat /\
    Forall (fun e => PrimFloat.ltb (norm_r e) 1e-6 = false) printed.
Proof.
  destruct (newtonrhapson (Co := two_dofs) tt [0.5; 0] (fun F _ => F)
              (fun _ _ => tt) [1%nat] [0%nat] [] 1e-6 [[0; 0]] 3)
    as [[[res printed] iterations]|] eqn:E; [|vm_compute in E; discriminate].
  exists res, printed, iterations. split; [reflexivity|].
  destruct (newtonrhapson_printed (Co := two_dofs) tt [0.5; 0]
              (fun F _ => F) (fun _ _ => tt) [1%nat] [0%nat] [] 1e-6
              [[0; 0]] 3 res printed iterations E) as (Hseq & _ & Hnot).
  assert (Hc : converged res = false /\ iterations = 3%nat).
  { vm_compute in E. injection E as <- _ <-. split; reflexivity. }
  split; [exact Hseq|]. split; [exact (proj1 Hc)|].
  split; [exact (proj2 Hc)|]. exact (proj1 (Hnot (proj1 Hc))).
Defined.

Lemma newtonrhapson_converged_tangent_run :
  exists res printed iterations,
    newtonrhapson (Co := two_dofs) tt [0.5; 0] (fun _ _ => [0; 0])
      (fun _ _ => tt) [1%nat] [0%nat] [] 1e-6 [[0; 0]] 3
    = Some (res, printed, iterations) /\
    converged res = true /\ iterations = 1%nat /\
    exists stk,
      fields res
      = add_fields (l_fields stk)
          (correction (Co := two_dofs) [0.5; 0] [1%nat] [0%nat] [] stk).
Proof.
  eexists _, _, _. split; [reflexivity|]. split; [reflexivity|].
  split; [reflexivity|].
  destruct (newtonrhapson_converged_tangent (Co := two_dofs) tt [0.5; 0]
              (fun _ _ => [0; 0]) (fun _ _ => tt) [1%nat] [0%nat] [] 1e-6
              [[0; 0]] 3 _ _ _ eq_refl eq_refl)
    as (st0 & k & stk & init & _ & _ & _ & Hf & _).
  exists stk. exact Hf.
Defined.

Lemma newtonrhapson_no_iteration_run :
  exists res printed iterations,
    newtonrhapson (Co := two_dofs) tt [0.5; 0] (fun _ _ => [0; 0])
      (fun _ _ => tt) [1%nat] [0%nat] [] 1e-6 [[0; 0]] 0
    = Some (res, printed, iterations) /\
    fields res = [[0; 0]] /\ converged res = false /\ printed = [] /\
    iterations = 0%nat.
Proof.
  eexists _, _, _. split; [reflexivity|].
  eapply (newtonrhapson_no_iteration (Co := two_dofs) tt [0.5; 0]
            (fun _ _ => [0; 0]) (fun _ _ => tt) [1%nat] [0%nat] [] 1e-6
            [[0; 0]] 0).
  - lia.
  - reflexivity.
Defined.


Lemma incsolve_edges_run :
  incsolve (Co := two_dofs) [[0; 0]] tt (fun _ _ => [0; 0]) (fun _ _ => tt)
    {[ "fixed"%string := 0 ]} [0.5; 1] "move" 8 1e-6 = None.
Proof.
  apply (proj2 (incsolve_edges (Co := two_dofs) tt (fun _ _ => [0; 0])
                  (fun _ _ => tt) "move" 8 1e-6 [[0; 0]]
                  {[ "fixed"%string := 0 ]})).
  left. reflexivity.
Defined.

Lemma dofresiduals_frame_run :
  let h : heap := {[ 1%positive := [[1; 2; 3]]; 2%positive := [[0; -0; 4]] ]} in
  let out := dofresiduals h {| mesh := {| elements_per_node := [2%Z] |} |}
               1 2 None in
  out.1 !! 1%positive = Some [[1; 2; 3]] /\
  (is_Some (out.1 !! 3%positive) <-> is_Some (h !! 3%positive)).
Proof.
  intros h out.
  destruct (dofresiduals_frame h
              {| mesh := {| elements_per_node := [2%Z] |} |} 1 2 None
              [[0; -0; 4]] eq_refl) as (Hframe & Hdom).
  split; [|exact (Hdom 3%positive)].
  unfold out. rewrite (Hframe 1%positive) by discriminate. reflexivity.
Defined.

Lemma dofresiduals_no_zero_left_run :
  let h : heap := {[ 1%positive := [[1; 2; 3]]; 2%positive := [[0; -0; 4]] ]} in
  let region := {| mesh := {| elements_per_node := [2%Z] |} |} in
  let h1 := (dofresiduals h region 1 2 None).1 in
  h1 !! 2%positive = Some [[nan; nan; 4]] /\
  (dofresiduals h1 region 2 2 (Some [0%nat])).1 = h1.
Proof.
  intros h region h1. split; [reflexivity|].
  exact (proj2 (dofresiduals_no_zero_left h region region 1 2 2 None
                  (Some [0%nat]) [[0; -0; 4]] eq_refl)).
Defined.

Lemma dofresiduals_rows_run :
  let h : heap :=
    {[ 1%positive := [[1; 2]; [3; 4]]; 2%positive := [[0; 4]; [0; 8]] ]} in
  let region := {| mesh := {| elements_per_node := [1%Z; 2%Z] |} |} in
  exists rxy,
    (dofresiduals h region 1 2 None).2 = Some (inl rxy) /\
    Py.item rxy 0 = Some [1; 2] /\ Py.item rxy 1 = Some [nan; 0.5].
Proof.
  intros h region.
  destruct (dofresiduals_rows h region 1 2 [[0; 4]; [0; 8]] _ eq_refl eq_refl)
    as (x & rxy & Hres & Hx & _ & Hrows).
  injection Hres as <-. injection Hx as <-.
  eexists. split; [reflexivity|]. split.
  - exact (Hrows 0%nat 1%Z [1; 2] [nan; 4] eq_refl eq_refl eq_refl).
  - exact (Hrows 1%nat 2%Z [3; 4] [nan; 8] eq_refl eq_refl eq_refl).
Defined.

Lemma curve_kinds_run :
  let interp1d := fun (_ _ : list float) (_ : string) =>
                    Some (fun xx : list float => xx) in
  let linspace := fun a b : float => [a; b] in
  curve interp1d linspace [0; 1; 2] [5] = None /\
  exists data fit,
    curve interp1d linspace [0; 1; 2; 3] [5; 6; 7] = Some (data, fit) /\
    data = ([0; 1; 2], [5; 6; 7]) /\
    interp1d [0; 1; 2] [5; 6; 7] "quadratic"%string = Some (fun xx => xx).
Proof.
  intros interp1d linspace. split.
  - apply (proj1 (curve_kinds interp1d linspace [0; 1; 2] [5])). cbn. lia.
  - eexists _, _. split; [reflexivity|].
    destruct (proj2 (curve_kinds interp1d linspace [0; 1; 2; 3] [5; 6; 7])
                _ _ eq_refl) as (_ & _ & Hdata & _).
    split; [exact Hdata | reflexivity].
Defined.

End Utils.
